(** * Lab-section tooling: a shallow embedding of [1l-tools.py]

    The development follows the document generation pipeline of the
    program: the student name value ([StudentName]), the random group
    assignment ([Roster.set_groups]), the composable LaTeX fragment
    ([CodeGen]), the output-name resolver ([MaybeOverwrite]) and the
    external-compiler orchestrator ([PDFWriter]).

    Python values are modelled as follows.  A [dict] used as a map is a
    [gmap]; the [dict] of launched jobs, whose iteration order the code
    relies on, is an insertion-ordered association list.  [None]-able
    fields are [option]s.  Python integers are unbounded, so counts and
    group numbers are [nat] and section and lab numbers are [Z].  A string
    is the sequence of its characters, each a code point below 256.  A
    raised exception is the [Raise] branch of [result]. *)

From Stdlib Require Import ZArith Lia Ascii.
From stdpp Require Import base option list strings pretty.
From stdpp Require Import gmap fin_maps fin_sets sorting.

(** ** Exceptions and results *)

Inductive exn : Type :=
  | ValueError (msg : string)
  | KeyError
  | IndexError
  | TypeError
  | FileNotFoundError (path : string)
  | SystemExit (msg : string).

Inductive result (A : Type) : Type :=
  | Ok (a : A)
  | Raise (e : exn).
Arguments Ok {A} a.
Arguments Raise {A} e.

(** Sequencing: an exception raised by the first computation propagates. *)
#[global] Instance result_ret : MRet result := λ A a, Ok a.
#[global] Instance result_bind : MBind result := λ A B f r,
  match r with Ok a => f a | Raise e => Raise e end.

(** ** Python string and path primitives *)

(** [s.startswith(p)]. *)
Fixpoint str_startswith (p s : string) : bool :=
  match p, s with
  | EmptyString, _ => true
  | String _ _, EmptyString => false
  | String a p', String b s' => Ascii.eqb a b && str_startswith p' s'
  end.

(** [s.endswith(suffix)]. *)
Fixpoint str_endswith (suffix s : string) : bool :=
  String.eqb s suffix ||
  match s with
  | EmptyString => false
  | String _ s' => str_endswith suffix s'
  end.

(** [needle in hay]: [needle] occurs in [hay] as a contiguous substring. *)
Fixpoint str_in (needle hay : string) : bool :=
  str_startswith needle hay ||
  match hay with
  | EmptyString => false
  | String _ hay' => str_in needle hay'
  end.

(** [s.split(sep)] for a one-character separator: one more part than there
    are separators, empty parts kept. *)
Fixpoint str_split (sep : ascii) (s : string) : list string :=
  match s with
  | EmptyString => [EmptyString]
  | String a s' =>
      if Ascii.eqb a sep then EmptyString :: str_split sep s'
      else
        match str_split sep s' with
        | part :: parts => String a part :: parts
        | [] => [String a EmptyString]
        end
  end.

(** The characters below 256 that [str.isspace] accepts and [str.strip]
    removes: tab to carriage return, the four separators 28 to 31, the
    blank, next line (133) and the no-break space (160). *)
Definition is_space (a : ascii) : bool :=
  let n := nat_of_ascii a in
  ((9 <=? n) && (n <=? 13) || (28 <=? n) && (n <=? 32) ||
   (n =? 133) || (n =? 160))%nat.

Fixpoint str_lstrip (s : string) : string :=
  match s with
  | EmptyString => EmptyString
  | String a s' => if is_space a then str_lstrip s' else s
  end.

Fixpoint str_rstrip (s : string) : string :=
  match s with
  | EmptyString => EmptyString
  | String a s' =>
      match str_rstrip s' with
      | EmptyString => if is_space a then EmptyString else String a EmptyString
      | r => String a r
      end
  end.

(** [s.strip()]. *)
Definition str_strip (s : string) : string := str_lstrip (str_rstrip s).

(** [sep.join(parts)]. *)
Definition str_join (sep : string) (parts : list string) : string :=
  String.concat sep parts.

(** [s * n] on strings; a negative count gives the empty string, as does
    the truncated subtraction that computes [n] here. *)
Fixpoint str_repeat (s : string) (n : nat) : string :=
  match n with
  | 0 => EmptyString
  | S n' => s +:+ str_repeat s n'
  end.

(** [s.replace(c, by)] for a character [c]. *)
Fixpoint str_replace (c : ascii) (by_ : string) (s : string) : string :=
  match s with
  | EmptyString => EmptyString
  | String a s' =>
      if Ascii.eqb a c then by_ +:+ str_replace c by_ s'
      else String a (str_replace c by_ s')
  end.

(** The line feed, ['\n']. *)
Definition newline : string := String (ascii_of_nat 10) EmptyString.

(** [sorted(d.items())]: the entries by increasing key. *)
Definition key_le {K V} (le : relation K) : relation (K * V) :=
  λ x y, le x.1 y.1.

#[global] Instance key_le_dec {K V} (le : relation K) `{!RelDecision le} :
  RelDecision (@key_le K V le).
Proof. intros x y. unfold key_le. apply _. Defined.

Definition sorted_items `{Countable K} {V} (le : relation K)
    `{!RelDecision le} (m : gmap K V) : list (K * V) :=
  merge_sort (key_le le) (map_to_list m).

(** [s.rfind(c)] for a character, counting positions from [i]: the last
    position of [c], or [-1]. *)
Fixpoint str_rfind_from (c : ascii) (s : string) (i : Z) : Z :=
  match s with
  | EmptyString => (-1)%Z
  | String a s' =>
      let r := str_rfind_from c s' (i + 1)%Z in
      if (0 <=? r)%Z then r else if Ascii.eqb a c then i else (-1)%Z
  end.

Definition str_rfind (c : ascii) (s : string) : Z := str_rfind_from c s 0%Z.

(** [s[i:j]] for [0 <= i]. *)
Definition str_slice (s : string) (i j : Z) : string :=
  String.substring (Z.to_nat i) (Z.to_nat (j - i)) s.

Fixpoint str_all (P : ascii → bool) (s : string) : bool :=
  match s with
  | EmptyString => true
  | String a s' => P a && str_all P s'
  end.

(** [os.path.splitext] (POSIX): the extension starts at the last dot of the
    last path component, unless only dots precede it in that component. *)
Definition os_path_splitext (p : string) : string * string :=
  let sepIndex := str_rfind "/" p in
  let dotIndex := str_rfind "." p in
  if (sepIndex <? dotIndex)%Z then
    let filenameIndex := (sepIndex + 1)%Z in
    if str_all (Ascii.eqb ".") (str_slice p filenameIndex dotIndex)
    then (p, EmptyString)
    else (str_slice p 0 dotIndex,
          str_slice p dotIndex (Z.of_nat (String.length p)))
  else (p, EmptyString).

(** [s.rstrip(c)] for a character [c]. *)
Fixpoint str_rstrip_char (c : ascii) (s : string) : string :=
  match s with
  | EmptyString => EmptyString
  | String a s' =>
      match str_rstrip_char c s' with
      | EmptyString =>
          if Ascii.eqb a c then EmptyString else String a EmptyString
      | r => String a r
      end
  end.

(** [os.path.dirname] (POSIX): what precedes the last slash, without the
    slashes that end it unless it is made of slashes only. *)
Definition os_path_dirname (p : string) : string :=
  let i := (str_rfind "/" p + 1)%Z in
  let head := str_slice p 0 i in
  if negb (String.eqb head "") && negb (str_all (Ascii.eqb "/") head)
  then str_rstrip_char "/" head
  else head.

(** [os.path.join(a, b)] (POSIX). *)
Definition os_path_join (a b : string) : string :=
  if str_startswith "/" b then b
  else if String.eqb a "" || str_endswith "/" a then a +:+ b
  else a +:+ "/" +:+ b.


(** ** [StudentName] *)

Module StudentName.

(** [self.string], [self.full_name_fnf], [self.last_name] and
    [self.first_name]. *)
Record t : Type := mk {
  string_ : string;
  full_name_fnf : option string;
  last_name : option string;
  first_name : option string
}.

(** [StudentName.__init__]: the unpacking [[last_name, first_name] =
    name.split(',')] raises [ValueError] unless the split has exactly two
    parts, that is unless [name] has exactly one comma. *)
Definition init (name : string) : t :=
  match str_split "," name with
  | [last_name; first_name] =>
      mk name None (Some (str_strip last_name)) (Some (str_strip first_name))
  | _ => mk name (Some name) None None
  end.

(** [StudentName.__str__]. *)
Definition str (self : t) : string := string_ self.

(** [StudentName.canonical].  Joining [None] raises [TypeError]. *)
Definition canonical (self : t) : result string :=
  match full_name_fnf self with
  | None =>
      match first_name self, last_name self with
      | Some first_name, Some last_name =>
          Ok (str_join " " [first_name; last_name])
      | _, _ => Raise TypeError
      end
  | Some full_name_fnf => Ok full_name_fnf
  end.

(** [StudentName.canonicalize]. *)
Definition canonicalize (self : t) : result t :=
  c ← canonical self; Ok (init c).

(** [StudentName.__eq__], for [other] a [StudentName]. *)
Definition eq (self other : t) : result bool :=
  c ← canonical self; c' ← canonical other; Ok (bool_decide (c = c')).

(** [StudentName.__lt__]. *)
Definition lt (self other : t) : result bool :=
  c ← canonical self; c' ← canonical other; Ok (String.ltb c c').

(** [StudentName.__hash__], over Python's hash of strings. *)
Definition hash (hash_str : string → Z) (self : t) : result Z :=
  c ← canonical self; Ok (hash_str c).

End StudentName.

#[global] Instance StudentName_eq_dec : EqDecision StudentName.t.
Proof. solve_decision. Defined.

(** ** [random.shuffle] and [itertools.cycle] *)

(** [x[i], x[j] = x[j], x[i]]. *)
Definition list_swap {A} (x : list A) (i j : nat) : list A :=
  match x !! i, x !! j with
  | Some xi, Some xj => <[j := xi]> (<[i := xj]> x)
  | _, _ => x
  end.

(** The loop of [random.shuffle]: for [i] from [len(x) - 1] down to [1],
    exchange [x[i]] with [x[j]] for [j = randbelow(i + 1)].  The generator
    is the list of its raw draws, each reduced below its bound. *)
Fixpoint random_shuffle_from {A} (draws : list nat) (i : nat) (x : list A)
    : list A :=
  match i with
  | 0 => x
  | S i' =>
      let j := hd 0 draws mod (i + 1) in
      random_shuffle_from (tl draws) i' (list_swap x i j)
  end.

Definition random_shuffle {A} (draws : list nat) (x : list A) : list A :=
  random_shuffle_from draws (length x - 1) x.

(** [zip(itertools.cycle(iterable), l)]: [cycle] hands out the elements of
    the iterable and then, again and again, the copy it saved of them; an
    empty iterable ends the zip at once.  [cur] is what remains of the
    current pass. *)
Fixpoint zip_cycle {A B} (saved cur : list A) (l : list B) : list (A * B) :=
  match l with
  | [] => []
  | b :: l' =>
      match cur with
      | a :: cur' => (a, b) :: zip_cycle saved cur' l'
      | [] =>
          match saved with
          | [] => []
          | a :: saved' => (a, b) :: zip_cycle saved saved' l'
          end
      end
  end.

(** ** [Roster] *)

Module Roster.

Record t : Type := mk {
  section : Z;
  students : list StudentName.t;
  groups : gmap nat (list StudentName.t)
}.

(** [Roster.__init__]. *)
Definition init (section : Z) (students : list StudentName.t) : t :=
  mk section students ∅.

(** [min(6, n // 5 + (0 if n % 5 == 0 else 1))]. *)
Definition ngroups (n : nat) : nat :=
  Nat.min 6 (n / 5 + (if decide (n mod 5 = 0) then 0 else 1)).

(** [{i + 1: [] for i in range(ngroups)}]. *)
Definition empty_groups (ngroups : nat) : gmap nat (list StudentName.t) :=
  foldl (λ groups i, <[i + 1 := []]> groups) ∅ (seq 0 ngroups).

(** [groups[key].append(student)]; a missing key raises [KeyError]. *)
Definition append_to (groups : gmap nat (list StudentName.t)) (key : nat)
    (student : StudentName.t) : result (gmap nat (list StudentName.t)) :=
  match groups !! key with
  | Some members => Ok (<[key := members ++ [student]]> groups)
  | None => Raise KeyError
  end.

(** The dealing loop of [set_groups]. *)
Fixpoint deal (pairs : list (nat * StudentName.t))
    (groups : gmap nat (list StudentName.t))
    : result (gmap nat (list StudentName.t)) :=
  match pairs with
  | [] => Ok groups
  | (group, student) :: pairs' =>
      groups' ← append_to groups (group + 1) student;
      deal pairs' groups'
  end.

(** [Roster.set_groups].  [shuffle] is the permutation that
    [random.shuffle] applies in place on this call. *)
Definition set_groups
    (shuffle : list StudentName.t → list StudentName.t) (self : t)
    : result t :=
  let n := length (students self) in
  let students := shuffle (students self) in
  let ngroups := ngroups n in
  let groups := empty_groups ngroups in
  groups ← deal (zip_cycle (seq 0 ngroups) (seq 0 ngroups) students) groups;
  Ok (mk (section self) students groups).

End Roster.

(** ** [Rosters] *)

Module Rosters.

(** Of [self.data], [generate_roster] reads [students] only: the dictionary
    from section number to the names of that section. *)
Record t : Type := mk {
  data_students : gmap Z (list StudentName.t)
}.

(** [Rosters.generate_roster]. *)
Definition generate_roster
    (shuffle : list StudentName.t → list StudentName.t) (self : t)
    (section : Z) : result Roster.t :=
  match data_students self !! section with
  | Some names =>
      students ← mapM StudentName.canonicalize names;
      let roster := Roster.init section students in
      Roster.set_groups shuffle roster
  | None => Raise KeyError
  end.

End Rosters.

(** ** [CodeGen]: the composable document fragment *)

Module CodeGen.

(** The object state: [self.lab], [self.checkpoints] and [self.code], a
    dictionary from section number to the lines of LaTeX of that section. *)
Record t : Type := mk {
  lab : option Z;
  checkpoints : option (list string);
  code : gmap Z (list string)
}.

(** [{**a, **b}]: the entries of [a], then those of [b]; a key of both
    keeps the value of [b].  stdpp's union prefers its left operand. *)
Definition dict_merge (a b : gmap Z (list string)) : gmap Z (list string) :=
  b ∪ a.

(** [CodeGen.from_code]: [cls(None, lab, checkpoints)] builds an object
    with an empty dictionary, whose [code] is then replaced. *)
Definition from_code (code : gmap Z (list string)) (lab : option Z)
    (checkpoints : option (list string)) : t :=
  let obj := mk lab checkpoints ∅ in
  mk (CodeGen.lab obj) (CodeGen.checkpoints obj) code.

(** [CodeGen.mempty]: [cls(None, None, None)]. *)
Definition mempty : t := mk None None ∅.

(** [CodeGen.__add__]. *)
Definition add (self other : t) : t :=
  let code := dict_merge (code self) (code other) in
  let lab :=
    match lab self with Some l => Some l | None => lab other end in
  let checkpoints :=
    match checkpoints self with
    | Some c => Some c
    | None => checkpoints other
    end in
  from_code code lab checkpoints.

(** [CodeGen.__radd__]. *)
Definition radd (self rhs : t) : t := add self rhs.

(** [sum(generators, start)]: a left fold of [+] from [start]. *)
Definition sum (generators : list t) (start : t) : t :=
  foldl add start generators.

(** The [section] property.  [list(self.code.keys())[0]] is the first key
    of the dictionary. *)
Definition section (self : t) : result Z :=
  if decide (size (code self) = 1) then
    match (map_to_list (code self)).*1 !! 0%nat with
    | Some k => Ok k
    | None => Raise IndexError
    end
  else
    Raise (ValueError
      "generator has multiple sections. fatal error. check code").

(** [CodeGen.header] and [CodeGen.footer]. *)
Definition header : list string :=
  ["\documentclass[11pt]{article}";
   "\usepackage[margin=0.85in]{geometry}";
   "\usepackage{multirow}";
   "\usepackage{tabularx}";
   "\usepackage{makecell}";
   "\usepackage[sfdefault, lf]{carlito}";
   "\newcolumntype{?}{!{\vrule width 2pt}}";
   "\newcolumntype{C}{>{\centering\arraybackslash}X}";
   "\setlength\arrayrulewidth{1pt}";
   "\renewcommand{\arraystretch}{1.3}";
   "\pagenumbering{gobble}";
   "\begin{document}"].

Definition footer : list string := ["\end{document}"].

(** [len(self.checkpoints)]; [None] has no length. *)
Definition len_checkpoints (self : t) : result nat :=
  match checkpoints self with
  | Some c => Ok (length c)
  | None => Raise TypeError
  end.

(** [self.code[section].append(line)]. *)
Definition append_line (self : t) (section : Z) (line : string) : result t :=
  match code self !! section with
  | Some lines =>
      Ok (mk (lab self) (checkpoints self)
             (<[section := lines ++ [line]]> (code self)))
  | None => Raise KeyError
  end.

(** The loop of [add_group] over [students[1:]]. *)
Fixpoint add_rows (self : t) (section : Z) (n : nat) (seps : string)
    (students : list StudentName.t) : result t :=
  match students with
  | [] => Ok self
  | student :: students' =>
      self ← append_line self section
        ("      \cline{1-2}\cline{4-" +:+ pretty (n + 5) +:+ "}");
      self ← append_line self section
        ("      & & & " +:+ StudentName.str student +:+ " & & " +:+ seps
         +:+ "\\");
      add_rows self section n seps students'
  end.

(** [CodeGen.add_group]. *)
Definition add_group (self : t) (section : Z) (group : nat)
    (students : list StudentName.t) : result t :=
  match students with
  | [] => Ok self
  | first_student :: rest =>
      let nrows := length students in
      n ← len_checkpoints self;
      let seps := str_repeat "& " (n - 1) in
      self ← append_line self section
        ("      & & \multirow{" +:+ pretty nrows +:+ "}{*}" +:+
         "{\textbf{" +:+ pretty group +:+ "}} & " +:+
         StudentName.str first_student +:+ " & & " +:+ seps +:+ "\\");
      self ← add_rows self section n seps rest;
      append_line self section "      \hline"
  end.

(** The loop of [section_codegen] over the sorted groups. *)
Fixpoint add_groups (self : t) (section : Z)
    (groups : list (nat * list StudentName.t)) : result t :=
  match groups with
  | [] => Ok self
  | (group, students) :: groups' =>
      self ← add_group self section group students;
      add_groups self section groups'
  end.

(** ['{}'.format(self.lab)]. *)
Definition format_lab (lab : option Z) : string :=
  match lab with
  | Some l => pretty l
  | None => "None"
  end.

(** The lines [begin] and [end] of [section_codegen]. *)
Definition begin_lines (lab : option Z) (section : Z)
    (checkpoints : list string) : list string :=
  let n := length checkpoints in
  ["\begin{center}";
   "  \begin{tabularx}{\textwidth}{?>{\hsize=5em}C|c|c|X|c|" +:+
     str_join "|" (replicate n "c") +:+ "?}";
   "    \Xhline{2pt}";
   "    \multicolumn{3}{?l}{\textbf{Lab " +:+ format_lab lab +:+ "}} & " +:+
     "\multicolumn{1}{C}{\textbf{Section " +:+ pretty section +:+ "}} " +:+
     "& \multicolumn{" +:+ pretty (n + 1) +:+ "}{l?}{\textbf{Date:}} \\";
   "    \Xhline{2pt}";
   "    \textbf{Signature} & \textbf{Late} & \textbf{Group} & " +:+
     "\multicolumn{1}{c|}{\textbf{Student}} & \textbf{TA Check} & " +:+
     str_join " & "
       ((λ c, str_replace "&" "\&" ("\textbf{" +:+ c +:+ "}"))
          <$> checkpoints) +:+
     " \\";
   "    \Xhline{2pt}"].

Definition end_lines : list string :=
  ["    \Xhline{2pt}";
   "  \end{tabularx}";
   "\end{center}";
   "\newpage"].

(** [CodeGen.section_codegen]. *)
Definition section_codegen (self : t) (roster : Roster.t) : result t :=
  match checkpoints self with
  | None => Raise TypeError
  | Some cps =>
      let begin := begin_lines (lab self) (Roster.section roster) cps in
      let section := Roster.section roster in
      let self :=
        mk (lab self) (checkpoints self) (<[section := []]> (code self)) in
      self ← add_groups self section
                (sorted_items Nat.le (Roster.groups roster));
      match code self !! section with
      | Some lines =>
          Ok (mk (lab self) (checkpoints self)
                 (<[section := begin ++ removelast lines ++ end_lines]>
                    (code self)))
      | None => Raise KeyError
      end
  end.

(** [CodeGen.__init__]. *)
Definition init (roster : option Roster.t) (lab : option Z)
    (checkpoints : option (list string)) : result t :=
  let self := mk lab checkpoints ∅ in
  match roster with
  | Some roster => section_codegen self roster
  | None => Ok self
  end.

(** [CodeGen.run]. *)
Definition run (self : t) : string :=
  let code := removelast (concat (sorted_items Z.le (code self)).*2) in
  str_join newline (header ++ code ++ footer).

End CodeGen.

Infix "+ᶜ" := CodeGen.add (at level 50, left associativity).

(** ** The operating system seen by the program

    The file system maps the absolute path of each regular file to its
    content and keeps the set of directories; the root is always there.
    It is taken to be well formed: a path names a file or a directory, not
    both, and a file lies in a directory or in nothing, not in a file.
    Every call the program makes to the outside is recorded, oldest first,
    in [trace]; what the interpreter does on its own, the finalizer of a
    temporary directory, changes the file system and is not recorded.  An
    external compiler is a function of its command line, its working
    directory and the files it can read; it yields the text of its standard
    output and the files it leaves in its working directory.  Temporary
    directories take their names from a counter. *)

Inductive event : Type :=
  | EvMakedirs (dir : string)
  | EvChdir (dir : string)
  | EvWrite (path : string)
  | EvLaunch (pid : nat) (argv : list string)
  | EvWait (pid : nat)
  | EvMove (src dst : string)
  | EvRmtree (dir : string)
  | EvPrint (line : string).

Record outcome : Type := Outcome {
  out_stdout : string;
  out_files : list (string * string)
}.

Record world : Type := World {
  files : gmap string string;
  dirs : gset string;
  cwd : string;
  executables : list string;
  compiler : list string → string → gmap string string → outcome;
  next_tmp : nat;
  next_pid : nat;
  trace : list event
}.

(** A launched process: its identifier, the directory it runs in and what
    it will have produced when it exits. *)
Record popen : Type := Popen {
  pid : nat;
  pcwd : string;
  poutcome : outcome
}.

Definition M (A : Type) : Type := world → result (A * world).

#[global] Instance M_ret : MRet M := λ A a w, Ok (a, w).
#[global] Instance M_bind : MBind M := λ A B f m w,
  match m w with
  | Ok (a, w') => f a w'
  | Raise e => Raise e
  end.

Definition record (e : event) (w : world) : world :=
  World (files w) (dirs w) (cwd w) (executables w) (compiler w)
        (next_tmp w) (next_pid w) (trace w ++ [e]).

Definition set_files (f : gmap string string) (w : world) : world :=
  World f (dirs w) (cwd w) (executables w) (compiler w)
        (next_tmp w) (next_pid w) (trace w).

Definition set_dirs (d : gset string) (w : world) : world :=
  World (files w) d (cwd w) (executables w) (compiler w)
        (next_tmp w) (next_pid w) (trace w).

Definition set_cwd (c : string) (w : world) : world :=
  World (files w) (dirs w) c (executables w) (compiler w)
        (next_tmp w) (next_pid w) (trace w).

(** A relative path is looked up from the working directory. *)
Definition abspath (w : world) (p : string) : string :=
  if str_startswith "/" p then p else os_path_join (cwd w) p.

(** [os.path.exists]. *)
Definition os_path_exists (w : world) (p : string) : bool :=
  bool_decide (abspath w p ∈ dom (files w)) ||
  bool_decide (abspath w p ∈ dirs w).

(** There is a directory at the absolute path [d]: [d] is the root, or a
    directory of the file system goes by that name, with or without a
    slash at its end. *)
Definition dir_exists (w : world) (d : string) : bool :=
  negb (String.eqb d "") && str_all (Ascii.eqb "/") d ||
  bool_decide (d ∈ dirs w) || bool_decide (d +:+ "/" ∈ dirs w).

Definition os_getcwd : M string := λ w, Ok (cwd w, w).

Definition os_chdir (dir : string) : M unit := λ w,
  Ok (tt, record (EvChdir dir) (set_cwd (abspath w dir) w)).

(** [os.makedirs(dir, exist_ok=True)] inside [try ... except OSError: pass]. *)
Definition os_makedirs (dir : string) : M unit := λ w,
  Ok (tt, record (EvMakedirs dir) (set_dirs ({[abspath w dir]} ∪ dirs w) w)).

(** [with open(path, 'w') as f: f.write(content)]. *)
Definition open_write (path content : string) : M unit := λ w,
  Ok (tt, record (EvWrite path)
            (set_files (<[abspath w path := content]> (files w)) w)).

(** [tempfile.TemporaryDirectory()]: the name of the new directory.  The
    object that holds the name has a finalizer ([tmp_finalize] below), run
    where the program lets go of the object. *)
Definition tempfile_TemporaryDirectory : M string := λ w,
  let name := "/tmp/tmp" +:+ pretty (next_tmp w) in
  Ok (name,
      World (files w) ({[name]} ∪ dirs w) (cwd w) (executables w) (compiler w)
            (S (next_tmp w)) (next_pid w) (trace w)).

(** What is left of the file system when the directory [dir] goes with all
    below it. *)
Definition rmtree (dir : string) (w : world) : world :=
  let below (p : string) := str_startswith (dir +:+ "/") p = true in
  set_files (filter (λ entry, ¬ below entry.1) (files w))
    (set_dirs (filter (λ d, ¬ below d) (dirs w ∖ {[dir]})) w).

(** [TemporaryDirectory.cleanup()]: the directory and all below it go. *)
Definition tmp_cleanup (dir : string) : M unit := λ w,
  Ok (tt, record (EvRmtree dir) (rmtree dir w)).

(** The finalizer of a [TemporaryDirectory] object.  The interpreter runs it
    when the last reference to the object goes, unless [cleanup] has been
    called: what is left of the directory goes, with all below it. *)
Definition tmp_finalize (dir : string) : M unit := λ w,
  Ok (tt, rmtree dir w).

(** [shutil.which(name)], as a truth value. *)
Definition shutil_which (name : string) : M bool := λ w,
  Ok (bool_decide (name ∈ executables w), w).

(** [shutil.move(src, dst)] for a regular file [src] and a [dst] that is not
    a directory: a file already at [dst] is replaced.  It raises
    [FileNotFoundError] when there is no file at [src], and when the
    directory that [dst] lies in does not exist. *)
Definition shutil_move (src dst : string) : M unit := λ w,
  match files w !! abspath w src with
  | Some content =>
      if dir_exists w (os_path_dirname (abspath w dst)) then
        Ok (tt, record (EvMove src dst)
                  (set_files (<[abspath w dst := content]>
                                (delete (abspath w src) (files w))) w))
      else Raise (FileNotFoundError dst)
  | None => Raise (FileNotFoundError src)
  end.

(** [subprocess.Popen(argv, stdout=PIPE, stderr=DEVNULL)]. *)
Definition subprocess_Popen (argv : list string) : M popen := λ w,
  let proc := Popen (next_pid w) (cwd w) (compiler w argv (cwd w) (files w)) in
  Ok (proc,
      World (files w) (dirs w) (cwd w) (executables w) (compiler w)
            (next_tmp w) (S (next_pid w))
            (trace w ++ [EvLaunch (next_pid w) argv])).

(** [proc.wait()]: when it returns the process has exited and its files are
    in its working directory. *)
Definition proc_wait (proc : popen) : M unit := λ w,
  let put (fs : gmap string string) (entry : string * string) :=
    <[os_path_join (pcwd proc) entry.1 := entry.2]> fs in
  Ok (tt, record (EvWait (pid proc))
            (set_files (foldl put (files w) (out_files (poutcome proc))) w)).

(** [proc.stdout.read().decode('utf-8')]. *)
Definition proc_stdout_read (proc : popen) : M string := λ w,
  Ok (out_stdout (poutcome proc), w).

Definition print (line : string) : M unit := λ w,
  Ok (tt, record (EvPrint line) w).

Definition sys_exit {A} (msg : string) : M A := λ w, Raise (SystemExit msg).

(** The processes launched and not yet waited for, oldest first. *)
Fixpoint in_flight_from (running : list nat) (tr : list event) : list nat :=
  match tr with
  | [] => running
  | EvLaunch pid _ :: tr' => in_flight_from (running ++ [pid]) tr'
  | EvWait pid :: tr' =>
      in_flight_from (filter (λ p, p ≠ pid) running) tr'
  | _ :: tr' => in_flight_from running tr'
  end.

Definition in_flight (tr : list event) : list nat := in_flight_from [] tr.

(** The largest number of processes in flight at any point of a trace. *)
Definition peak_in_flight (tr : list event) : nat :=
  max_list ((λ n, length (in_flight (take n tr))) <$> seq 0 (S (length tr))).

(** [d[k] = v] on an insertion-ordered dictionary: a present key keeps its
    place, a new key goes last. *)
Fixpoint dict_set {V} (d : list (string * V)) (k : string) (v : V)
    : list (string * V) :=
  match d with
  | [] => [(k, v)]
  | (k', v') :: d' =>
      if decide (k' = k) then (k, v) :: d' else (k', v') :: dict_set d' k v
  end.

(** [d.get(k)] on such a dictionary. *)
Fixpoint dict_get {V} (d : list (string * V)) (k : string) : option V :=
  match d with
  | [] => None
  | (k', v') :: d' => if decide (k' = k) then Some v' else dict_get d' k
  end.

(** ** [MaybeOverwrite] *)

(** The abstract method [write_to_path] that a child class provides. *)
Class MaybeOverwrite (T : Type) := write_to_path : T → string → M unit.

(** ['{}({}){}'.format(prefix, i, ext)]. *)
Definition alt_path (prefix : string) (i : nat) (ext : string) : string :=
  prefix +:+ "(" +:+ pretty i +:+ ")" +:+ ext.

(** [for i in itertools.count(i): ...]: the first [alt_path] from [i] on
    that does not exist; [None] when [fuel] iterations did not find it. *)
Fixpoint count_loop (fuel i : nat) (prefix ext : string) (w : world)
    : option string :=
  match fuel with
  | 0 => None
  | S fuel' =>
      let alt_path := alt_path prefix i ext in
      if negb (os_path_exists w alt_path) then Some alt_path
      else count_loop fuel' (S i) prefix ext w
  end.

(** The path that [maybe_overwrite] hands to [write_to_path]. *)
Definition maybe_overwrite_path (fuel : nat) (fpath : string) (inplace : bool)
    (w : world) : option string :=
  let '(prefix, ext) := os_path_splitext fpath in
  if os_path_exists w fpath && negb inplace
  then count_loop fuel 1 prefix ext w
  else Some fpath.

(** [MaybeOverwrite.maybe_overwrite]. *)
Definition maybe_overwrite `{MaybeOverwrite T} (fuel : nat) (self : T)
    (fpath : string) (inplace : bool) (w : world)
    : option (result (unit * world)) :=
  fpath' ← maybe_overwrite_path fuel fpath inplace w;
  Some (write_to_path self fpath' w).

(** ** [Configuration] *)

Module Configuration.

(** Of the parsed configuration file the writers read the table [paths]:
    [parsed_paths] is [self.parsed['paths']] when the file has that
    table. *)
Record t : Type := mk {
  parsed_paths : option (gmap string string)
}.

(** The [paths] property. *)
Definition paths (self : t) : result (gmap string string) :=
  match parsed_paths self with
  | Some paths => Ok paths
  | None => Raise KeyError
  end.

End Configuration.

(** [d[k]] on a dictionary. *)
Definition dict_item (d : gmap string string) (k : string) : result string :=
  match d !! k with
  | Some v => Ok v
  | None => Raise KeyError
  end.

(** ** The children of [MaybeOverwrite]

    [write_to_path] of each child hands its data to pandas; it is taken as
    given, under the class of the child.  The records keep the fields that
    [write] reads. *)

Module SummaryAttendanceSheet.

Record t : Type := mk {
  lab : Z;
  checkpoints : list string;
  config : Configuration.t
}.

(** [SummaryAttendanceSheet.write]. *)
Definition write `{!MaybeOverwrite t} (fuel : nat) (self : t) (w : world)
    : option (result (unit * world)) :=
  let parent :=
    match paths ← Configuration.paths (config self);
          dict_item paths "rosters" with
    | Ok parent => Ok parent
    | Raise KeyError => Ok (cwd w)
    | Raise e => Raise e
    end in
  match parent with
  | Ok parent =>
      let fpath :=
        os_path_join parent
          ("Lab " +:+ pretty (lab self) +:+ " Summary Attendance.xlsx") in
      maybe_overwrite fuel self fpath false w
  | Raise e => Some (Raise e)
  end.

End SummaryAttendanceSheet.

Module PublishedData.

Record t : Type := mk {
  config : Configuration.t
}.

(** [PublishedData.write]. *)
Definition write `{!MaybeOverwrite t} (fuel : nat) (self : t)
    (inplace : bool) (w : world) : option (result (unit * world)) :=
  maybe_overwrite fuel self "updated-for-canvas.csv" inplace w.

End PublishedData.

Module TAGradeSheets.

Record t : Type := mk {
  config : Configuration.t
}.

(** [TAGradeSheets.write]: [sys.exit] inside the [try] is not a
    [KeyError] and passes through. *)
Definition write `{!MaybeOverwrite t} (fuel : nat) (self : t)
    (inplace : bool) (w : world) : option (result (unit * world)) :=
  let configured :=
    paths ← Configuration.paths (config self);
    fpath ← dict_item paths "current-grade-sheet";
    if negb (String.eqb (os_path_splitext fpath).2 ".xlsx") then
      Raise (SystemExit
               ("Error: '" +:+ fpath +:+ "' is not an Excel file name"))
    else Ok fpath in
  match configured with
  | Ok fpath => maybe_overwrite fuel self fpath inplace w
  | Raise KeyError =>
      let fpath := os_path_join (cwd w) "updated-ta-grade-sheet.xlsx" in
      maybe_overwrite fuel self fpath inplace w
  | Raise e => Some (Raise e)
  end.

End TAGradeSheets.

(** ** [PDFWriter] *)

Module PDFWriter.

(** One entry of [self.procs]: [{'tmp': ..., 'parent': ..., 'proc': ...}]. *)
Record info : Type := Info {
  tmp : string;
  parent : string;
  proc : popen
}.

Record t : Type := mk {
  procs : list (string * info);
  cwd : string;
  sequential : bool
}.

(** [PDFWriter.__init__]. *)
Definition init : M t :=
  cwd ← os_getcwd; mret (mk [] cwd true).

Definition missing_package_line (fname : string) : string :=
  "Encountered missing package when processing " +:+
  "'" +:+ fname +:+ ".tex'. " +:+ "One solution is to " +:+
  "install `tectonic` and try again.".

Definition see_log_line (fname : string) : string :=
  "`pdflatex` encountered an error when processing " +:+
  "'" +:+ fname +:+ ".tex'. See log for details.".

(** The body of the loop of [clean], for one entry of [self.procs]. *)
Definition clean_job (fname : string) (info : info) : M unit :=
  let tmp := tmp info in
  let parent := parent info in
  os_chdir tmp;;
  proc_wait (proc info);;
  stdout ← proc_stdout_read (proc info);
  if str_in "error" stdout || str_in "Error" stdout then
    (if str_in "not found" stdout
     then print (missing_package_line fname)
     else print (see_log_line fname));;
    let log := fname +:+ ".log" in
    shutil_move (os_path_join tmp log) (os_path_join parent log);;
    let tex := fname +:+ ".tex" in
    shutil_move (os_path_join tmp tex) (os_path_join parent tex)
  else
    let pdf := fname +:+ ".pdf" in
    shutil_move (os_path_join tmp pdf) (os_path_join parent pdf);;
    tmp_cleanup tmp.

Fixpoint clean_loop (items : list (string * info)) : M unit :=
  match items with
  | [] => mret tt
  | (fname, info) :: items' => clean_job fname info;; clean_loop items'
  end.

(** Records that [self.procs] lets go of: nothing else refers to the
    directory object of such a record, whose finalizer runs (where
    [cleanup] has been called, the directory is gone and nothing is left
    for it to remove). *)
Fixpoint drop_records (items : list (string * info)) : M unit :=
  match items with
  | [] => mret tt
  | (_, info) :: items' => tmp_finalize (tmp info);; drop_records items'
  end.

(** [PDFWriter.clean].  [self.procs = dict()] drops every record.  (The
    loop variables, and [call_ext] when it is the caller, still name the
    directory object of one record until they return, which is after the
    change of directory; the finalizer does not depend on the working
    directory.) *)
Definition clean (self : t) : M t :=
  clean_loop (procs self);;
  drop_records (procs self);;
  let self := mk [] (cwd self) (sequential self) in
  os_chdir (cwd self);;
  mret self.

(** [PDFWriter.__exit__]. *)
Definition exit (self : t) : M t := clean self.

(** [PDFWriter.call_ext]. *)
Definition call_ext (self : t) (cmd : list string)
    (parent_dir fname src : string) : M t :=
  let src_fname := fname +:+ ".tex" in
  tmp_dir ← tempfile_TemporaryDirectory;
  os_chdir tmp_dir;;
  open_write src_fname src;;
  proc ← subprocess_Popen (cmd ++ [src_fname]);
  (* [self.procs[fname] = ...] drops the record that [fname] had *)
  drop_records (from_option (λ old, [(fname, old)]) []
                  (dict_get (procs self) fname));;
  let self :=
    mk (dict_set (procs self) fname (Info tmp_dir parent_dir proc))
       (cwd self) (sequential self) in
  if sequential self then clean self else mret self.

(** [PDFWriter.write]. *)
Definition write (self : t) (parent_dir fname src : string) : M t :=
  os_makedirs parent_dir;;
  shutil_which "tectonic" ≫= λ tectonic : bool,
  if tectonic then
    self ← call_ext self ["tectonic"] parent_dir fname src;
    mret (mk (procs self) (cwd self) false)
  else
    shutil_which "pdflatex" ≫= λ pdflatex : bool,
    if pdflatex then
      let self := mk (procs self) (cwd self) false in
      call_ext self ["pdflatex"; "-interaction=nonstopmode"]
               parent_dir fname src
    else
      sys_exit ("pdflatex and tectonic not found. Do you have LaTeX " +:+
                "installed and configured on your system?").

End PDFWriter.

(** ** Auxiliary definitions *)

(** [no_char c s]: the character [c] does not occur in [s], said with the
    program's own substring test. *)
Definition no_char (c : ascii) (s : string) : Prop :=
  str_in (String c "") s = false.

(** The members of all groups together. *)
Definition members (m : gmap nat (list StudentName.t))
    : list StudentName.t :=
  concat (map_to_list m).*2.

(** Sample classes: [class_of n] has [n] students, named by their number. *)
Definition class_of (n : nat) : list StudentName.t :=
  (λ i : nat, StudentName.init (pretty i)) <$> seq 0 n.

Definition sample_draws : list nat :=
  [3; 1; 4; 1; 5; 9; 2; 6; 5; 3; 5; 8; 9; 7; 9; 3; 2; 3; 8; 4; 6; 2; 6; 4;
   3; 3; 8; 3; 2; 7; 9; 5; 0; 2; 8; 8; 4; 1; 9; 7].

(** Sample fragments. *)
Definition fragment_1 : CodeGen.t :=
  CodeGen.mk (Some 3%Z) (Some ["1"; "2"]) {[1%Z := ["\begin{center}"]]}.
Definition fragment_2 : CodeGen.t :=
  CodeGen.mk (Some 3%Z) (Some ["1"; "2"]) {[2%Z := ["\hline"]]}.
Definition fragment_12 : CodeGen.t :=
  CodeGen.mk None None {[12%Z := ["\end{center}"; "\newpage"]]}.

(** The paths in use: regular files and directories. *)
Definition occupied (w : world) : gset string := dom (files w) ∪ dirs w.

(** A path is rooted when it starts at the root directory. *)
Definition rooted (p : string) : bool := str_startswith "/" p.

(** A toy compiler: it reads the source named last on its command line and
    writes a PDF next to it, unless the source uses [\undefined], in which
    case it reports an error and leaves a log. *)
Definition sample_compiler (argv : list string) (cwd : string)
    (fs : gmap string string) : outcome :=
  match last argv with
  | Some src =>
      let base := (os_path_splitext src).1 in
      match fs !! os_path_join cwd src with
      | Some text =>
          if str_in "\undefined" text
          then Outcome "! Undefined control sequence. error: halted"
                       [(base +:+ ".log", "log of " +:+ text)]
          else Outcome "Writing the output file"
                       [(base +:+ ".pdf", "PDF of " +:+ text)]
      | None => Outcome "error: source not found" []
      end
  | None => Outcome "error: no input" []
  end.

(** A machine with [tectonic] installed and some files in [/out]. *)
Definition sample_world (fs : gmap string string) : world :=
  World fs {["/home"; "/out"; "/tmp"]} "/home" ["tectonic"] sample_compiler
        0 0 [].

(** The world once the working directory is the scratch directory of a job
    and the process of the job has exited. *)
Definition exited (info : PDFWriter.info) (w : world) : world :=
  match (os_chdir (PDFWriter.tmp info);;
         proc_wait (PDFWriter.proc info)) w with
  | Ok (_, w') => w'
  | Raise _ => w
  end.

(** What the scratch directory of a job holds under [name] at that point. *)
Definition in_scratch (info : PDFWriter.info) (w : world) (name : string)
    : option string :=
  files (exited info w)
    !! abspath (exited info w) (os_path_join (PDFWriter.tmp info) name).

(** The directory that the files of a job go to, as [clean] reads the
    destination: from the scratch directory of the job. *)
Definition dest_dir (fname : string) (info : PDFWriter.info) (w : world)
    : string :=
  os_path_dirname
    (abspath (exited info w) (os_path_join (PDFWriter.parent info) fname)).

(** The world once the records [items] have been let go of. *)
Definition after_drop (items : list (string * PDFWriter.info)) (w : world)
    : world :=
  foldl (λ w item, rmtree (PDFWriter.tmp item.2) w) w items.

(** Events that neither launch a process nor wait for one. *)
Definition quiet (e : event) : Prop :=
  match e with
  | EvLaunch _ _ | EvWait _ => False
  | _ => True
  end.

(** A child class of [MaybeOverwrite] that writes a text to the path. *)
Record text_file : Type := TextFile { text : string }.

#[global] Instance text_file_write : MaybeOverwrite text_file :=
  λ self fpath, open_write fpath (text self).

(** A job whose compiler has reported an error and left a log, and one
    whose compiler has produced the artifact; the source of each is in its
    scratch directory. *)
Definition failed_job : PDFWriter.info :=
  PDFWriter.Info "/tmp/tmp0" "/out"
    (Popen 0 "/tmp/tmp0"
       (Outcome "Error: undefined control sequence" [("x.log", "the log")])).

Definition finished_job : PDFWriter.info :=
  PDFWriter.Info "/tmp/tmp0" "/out"
    (Popen 0 "/tmp/tmp0" (Outcome "Output written" [("x.pdf", "the pdf")])).



Definition scratch_world : world :=
  let w :=
    sample_world
      {["/tmp/tmp0/x.tex" := "the source"; "/out/x.pdf" := "old"]} in
  set_dirs ({["/tmp/tmp0"]} ∪ dirs w) w.

(** [every G d l]: the elements of [l] at the positions [d], [d + G],
    [d + 2 G], ... *)
Fixpoint every {A} (G d : nat) (l : list A) : list A :=
  match l with
  | [] => []
  | x :: l' =>
      match d with
      | 0 => x :: every G (G - 1) l'
      | S d' => every G d' l'
      end
  end.

(** How far the student to be dealt next is from a student of group
    [g + 1], when group [c + 1] comes next ([c = G] before the cycle starts
    over). *)
Definition turns_until (G c g : nat) : nat :=
  if decide (c ≤ g) then g - c else g + G - c.

(** The rows of a group in a table with [n] checkpoint columns. *)
Definition first_row (n nrows group : nat) (student : StudentName.t)
    : string :=
  "      & & \multirow{" +:+ pretty nrows +:+ "}{*}" +:+
  "{\textbf{" +:+ pretty group +:+ "}} & " +:+
  StudentName.str student +:+ " & & " +:+ str_repeat "& " (n - 1) +:+ "\\".

Definition rule_row (n : nat) : string :=
  "      \cline{1-2}\cline{4-" +:+ pretty (n + 5) +:+ "}".

Definition student_row (n : nat) (student : StudentName.t) : string :=
  "      & & & " +:+ StudentName.str student +:+ " & & " +:+
  str_repeat "& " (n - 1) +:+ "\\".

Definition group_lines (n group : nat) (students : list StudentName.t)
    : list string :=
  match students with
  | [] => []
  | first_student :: rest =>
      first_row n (length students) group first_student ::
      (rest ≫= λ student, [rule_row n; student_row n student]) ++
      ["      \hline"]
  end.

Definition table_body (n : nat) (groups : list (nat * list StudentName.t))
    : list string :=
  groups ≫= λ g, group_lines n g.1 g.2.

(** The fragment of one section with the given lines. *)
Definition one_section (kv : Z * list string) : gmap Z (list string) :=
  {[kv.1 := kv.2]}.

(** Sections in increasing order. *)
Definition ascending (secs : list (Z * list string)) : Prop :=
  StronglySorted (λ x y : Z * list string, (x.1 < y.1)%Z) secs.

(** Events other than the launch of a process. *)
Definition no_launch (e : event) : Prop :=
  match e with
  | EvLaunch _ _ => False
  | _ => True
  end.

(** The processes waited for in a trace, in the order of the waits. *)
Definition waits (tr : list event) : list nat :=
  omap (λ e, match e with EvWait p => Some p | _ => None end) tr.

(** The processes of the retained jobs, in the order of [self.procs]. *)
Definition job_pids (procs : list (string * PDFWriter.info)) : list nat :=
  (λ job, pid (PDFWriter.proc job.2)) <$> procs.

(** A machine with [pdflatex] only. *)
Definition pdflatex_world : world :=
  World ∅ {["/home"; "/out"; "/tmp"]} "/home" ["pdflatex"] sample_compiler
        0 0 [].

(** * Properties *)

(** ** The fragment algebra *)

Section CodeGen_laws.

Implicit Types a b c : CodeGen.t.

Lemma add_assoc a b c : (a +ᶜ b) +ᶜ c = a +ᶜ (b +ᶜ c).
Proof.
  destruct a as [la ca ma], b as [lb cb mb], c as [lc cc mc].
  unfold CodeGen.add, CodeGen.from_code, CodeGen.dict_merge; simpl.
  f_equal.
  - by destruct la.
  - by destruct ca.
  - by rewrite (assoc_L (∪)).
Qed.

Lemma add_mempty_l a : CodeGen.mempty +ᶜ a = a.
Proof.
  destruct a as [la ca ma].
  unfold CodeGen.add, CodeGen.from_code, CodeGen.dict_merge; simpl.
  by rewrite (right_id_L ∅ (∪)).
Qed.

Lemma add_mempty_r a : a +ᶜ CodeGen.mempty = a.
Proof.
  destruct a as [la ca ma].
  unfold CodeGen.add, CodeGen.from_code, CodeGen.dict_merge; simpl.
  rewrite (left_id_L ∅ (∪)). f_equal; [by destruct la | by destruct ca].
Qed.

(** What a combined fragment holds at a section: the lines of the right
    operand if it has the section, else those of the left one. *)
Lemma add_lookup a b (s : Z) :
  CodeGen.code (a +ᶜ b) !! s =
    match CodeGen.code b !! s with
    | Some lines => Some lines
    | None => CodeGen.code a !! s
    end.
Proof.
  unfold CodeGen.add, CodeGen.from_code, CodeGen.dict_merge; simpl.
  rewrite lookup_union.
  by destruct (CodeGen.code b !! s), (CodeGen.code a !! s).
Qed.

Lemma add_dom a b :
  dom (CodeGen.code (a +ᶜ b)) = dom (CodeGen.code a) ∪ dom (CodeGen.code b).
Proof.
  unfold CodeGen.add, CodeGen.from_code, CodeGen.dict_merge; simpl.
  by rewrite dom_union_L, (comm_L (∪)).
Qed.

(** A dictionary of one entry is a singleton and lists that entry. *)
Lemma size_1_singleton (m : gmap Z (list string)) :
  size m = 1 → ∃ k lines, m = {[k := lines]}.
Proof.
  rewrite <- length_map_to_list. intros Hlen.
  destruct (map_to_list m) as [|[k lines] [|]] eqn:E;
    try discriminate Hlen.
  exists k; exists lines. rewrite <- (list_to_map_to_list m), E. simpl.
  by rewrite insert_empty.
Qed.

(** The "all sections" fragment of two fragments is their combination. *)
Lemma sum_pair a b : CodeGen.sum [a; b] CodeGen.mempty = a +ᶜ b.
Proof. unfold CodeGen.sum. simpl. by rewrite add_mempty_l. Qed.

Lemma section_singleton lab cps (k : Z) lines :
  CodeGen.section (CodeGen.mk lab cps {[k := lines]}) = Ok k.
Proof.
  unfold CodeGen.section; simpl.
  rewrite decide_True by apply map_size_singleton.
  by rewrite map_to_list_singleton.
Qed.

Lemma section_raises a :
  size (CodeGen.code a) ≠ 1 →
  CodeGen.section a = Raise (ValueError
    "generator has multiple sections. fatal error. check code").
Proof. intros Hsize. unfold CodeGen.section. by rewrite decide_False. Qed.

End CodeGen_laws.

(** C1.  Fragment combination is a monoid: for fragments [a], [b], [c] with
    pairwise-disjoint section keys, [(a + b) + c] and [a + (b + c)] are the
    same fragment (same keyed content, lab and checkpoints), and combining a
    fragment with [mempty], on either side, gives the fragment back. *)
Theorem CodeGen_add_monoid (a b c : CodeGen.t) :
  dom (CodeGen.code a) ## dom (CodeGen.code b) →
  dom (CodeGen.code a) ## dom (CodeGen.code c) →
  dom (CodeGen.code b) ## dom (CodeGen.code c) →
  (a +ᶜ b) +ᶜ c = a +ᶜ (b +ᶜ c) ∧
  CodeGen.mempty +ᶜ a = a ∧
  a +ᶜ CodeGen.mempty = a.
Proof.
  intros _ _ _. split; [apply add_assoc|].
  split; [apply add_mempty_l | apply add_mempty_r].
Qed.

Lemma CodeGen_add_monoid_witness :
  (fragment_1 +ᶜ fragment_2) +ᶜ fragment_12 =
    fragment_1 +ᶜ (fragment_2 +ᶜ fragment_12) ∧
  CodeGen.mempty +ᶜ fragment_1 = fragment_1 ∧
  fragment_1 +ᶜ CodeGen.mempty = fragment_1.
Proof.
  apply (CodeGen_add_monoid fragment_1 fragment_2 fragment_12);
    apply (bool_decide_unpack _); vm_compute; exact I.
Defined.

(** C10.  The [section] accessor is partial: on a fragment with exactly one
    section key it returns that key; on a fragment with no key or with more
    than one, among them the identity fragment and every combination of two
    non-empty fragments with disjoint keys, it raises [ValueError]. *)
Theorem CodeGen_section_partial :
  (∀ a, size (CodeGen.code a) = 1 →
        ∃ k, dom (CodeGen.code a) = {[k]} ∧ CodeGen.section a = Ok k) ∧
  (∀ a, size (CodeGen.code a) ≠ 1 →
        ∃ msg, CodeGen.section a = Raise (ValueError msg)) ∧
  (∃ msg, CodeGen.section CodeGen.mempty = Raise (ValueError msg)) ∧
  (∀ a b, CodeGen.code a ≠ ∅ → CodeGen.code b ≠ ∅ →
          dom (CodeGen.code a) ## dom (CodeGen.code b) →
          ∃ msg, CodeGen.section (a +ᶜ b) = Raise (ValueError msg)).
Proof.
  split; [|split; [|split]].
  - intros [lab cps m] Hsize; simpl in *.
    destruct (size_1_singleton m Hsize) as (k & lines & ->).
    exists k. split; [by rewrite dom_singleton_L | apply section_singleton].
  - intros a Hsize. eexists. by apply section_raises.
  - eexists. by apply section_raises.
  - intros a b Ha Hb Hdisj. eexists. apply section_raises.
    rewrite <- size_dom, add_dom, size_union, !size_dom by done.
    apply map_size_non_empty_iff in Ha, Hb. lia.
Qed.

Lemma CodeGen_section_partial_witness :
  (∃ k, dom (CodeGen.code fragment_12) = {[k]} ∧
        CodeGen.section fragment_12 = Ok k) ∧
  (∃ msg, CodeGen.section (fragment_1 +ᶜ fragment_2) = Raise (ValueError msg)).
Proof.
  destruct CodeGen_section_partial as (Hone & Hmany & _ & Hadd).
  split.
  - apply Hone. reflexivity.
  - apply Hadd.
    + apply (bool_decide_unpack _); vm_compute; exact I.
    + apply (bool_decide_unpack _); vm_compute; exact I.
    + apply (bool_decide_unpack _); vm_compute; exact I.
Defined.

(** ** Strings *)

Section string_facts.

Implicit Types (s t : string) (c a : ascii).

Lemma str_app_cons a s t : String a s +:+ t = String a (s +:+ t).
Proof. reflexivity. Qed.

Lemma str_app_nil_l s : "" +:+ s = s.
Proof. reflexivity. Qed.

(** [str_startswith] and [str_in] are the prefix and the substring tests. *)
Lemma str_startswith_spec s t :
  str_startswith s t = true ↔ ∃ r, t = s +:+ r.
Proof.
  revert t. induction s as [|a s IH]; intros t.
  - split; [by exists t | done].
  - destruct t as [|b t]; simpl.
    + split; [done | by intros [r ?]].
    + rewrite andb_true_iff, Ascii.eqb_eq, IH. split.
      * intros [-> [r ->]]. by exists r.
      * intros [r Heq]. rewrite str_app_cons in Heq.
        injection Heq as -> ->. eauto.
Qed.

Lemma str_in_spec s t :
  str_in s t = true ↔ ∃ l r, t = l +:+ s +:+ r.
Proof.
  induction t as [|b t IH]; simpl; rewrite orb_true_iff.
  - split.
    + intros [Hs|?]; [|done]. exists ""; exists "".
      by destruct s.
    + intros (l & r & Heq). left. by destruct l, s.
  - rewrite IH, str_startswith_spec. split.
    + intros [[r ->]|(l & r & ->)]; [by exists ""; exists r|].
      exists (String b l); exists r. by rewrite str_app_cons.
    + intros ([|c l] & r & Heq).
      * left. by exists r.
      * right. rewrite str_app_cons in Heq. injection Heq as -> ->. eauto.
Qed.

Lemma no_char_nil c : no_char c "".
Proof. reflexivity. Qed.

Lemma no_char_cons c a s : no_char c (String a s) ↔ a ≠ c ∧ no_char c s.
Proof.
  unfold no_char; simpl. rewrite andb_true_r, orb_false_iff.
  rewrite (Ascii.eqb_sym c a), Ascii.eqb_neq. tauto.
Qed.

Lemma no_char_app c s t : no_char c (s +:+ t) ↔ no_char c s ∧ no_char c t.
Proof.
  induction s as [|a s IH].
  - split; [intros ?; split; [apply no_char_nil | done] | by intros [_ ?]].
  - change (String a s +:+ t) with (String a (s +:+ t)).
    rewrite !no_char_cons, IH. tauto.
Qed.

Lemma str_split_no_char c s : no_char c s → str_split c s = [s].
Proof.
  induction s as [|a s IH]; [done|].
  intros [Hne Hs]%no_char_cons; simpl.
  apply Ascii.eqb_neq in Hne as ->. by rewrite IH.
Qed.

Lemma str_split_app_sep c s t :
  no_char c s → str_split c (s +:+ String c t) = s :: str_split c t.
Proof.
  induction s as [|a s IH]; simpl.
  - intros _. by rewrite Ascii.eqb_refl.
  - intros [Hne Hs]%no_char_cons.
    apply Ascii.eqb_neq in Hne as ->. by rewrite IH.
Qed.

(** No part of a split holds the separator. *)
Lemma str_split_parts c s : Forall (no_char c) (str_split c s).
Proof.
  induction s as [|a s IH]; simpl.
  - repeat constructor.
  - destruct (Ascii.eqb a c) eqn:Hac.
    + constructor; [apply no_char_nil | done].
    + destruct (str_split c s) as [|part parts].
      * repeat constructor. apply no_char_cons.
        by split; [apply Ascii.eqb_neq | apply no_char_nil].
      * apply Forall_cons in IH as [Hpart Hparts].
        constructor; [|done]. apply no_char_cons.
        by split; [apply Ascii.eqb_neq|].
Qed.

Lemma no_char_lstrip c s : no_char c s → no_char c (str_lstrip s).
Proof.
  induction s as [|a s IH]; [done|]. simpl.
  destruct (is_space a); [|done].
  intros [_ ?]%no_char_cons. by apply IH.
Qed.

Lemma no_char_rstrip c s : no_char c s → no_char c (str_rstrip s).
Proof.
  induction s as [|a s IH]; [done|].
  intros [Hne Hs]%no_char_cons. specialize (IH Hs). simpl.
  destruct (str_rstrip s) as [|b r].
  - destruct (is_space a); [apply no_char_nil|].
    apply no_char_cons. by split; [|apply no_char_nil].
  - apply no_char_cons. by split.
Qed.

Lemma no_char_strip c s : no_char c s → no_char c (str_strip s).
Proof. intros. by apply no_char_lstrip, no_char_rstrip. Qed.

(** A leading blank does not survive [strip]. *)
Lemma str_strip_blank s : str_strip (String " " s) = str_strip s.
Proof.
  unfold str_strip; simpl. by destruct (str_rstrip s).
Qed.

End string_facts.

(** ** Student names *)

Section StudentName_facts.

Lemma init_no_comma name :
  no_char "," name →
  StudentName.init name = StudentName.mk name (Some name) None None.
Proof.
  intros H. unfold StudentName.init. by rewrite str_split_no_char.
Qed.

Lemma canonical_no_comma name :
  no_char "," name → StudentName.canonical (StudentName.init name) = Ok name.
Proof. intros H. by rewrite init_no_comma. Qed.

(** Every constructed name has a canonical form, and the canonical form
    holds a comma only if the name was kept as it came. *)
Lemma canonical_init name :
  ∃ c, StudentName.canonical (StudentName.init name) = Ok c ∧
       (no_char "," c ∨ StudentName.init name =
                          StudentName.mk name (Some name) None None ∧ c = name).
Proof.
  unfold StudentName.init.
  pose proof (str_split_parts "," name) as Hparts.
  destruct (str_split "," name) as [|l [|f [|]]]; simpl; eauto.
  apply Forall_cons in Hparts as [Hl Hparts].
  apply Forall_cons in Hparts as [Hf _].
  eexists; split; [done|]. left.
  apply no_char_app; split; [by apply no_char_strip|].
  apply no_char_app; split; [done | by apply no_char_strip].
Qed.

Lemma canonical_last_first last first :
  no_char "," last → no_char "," first →
  str_strip last = last → str_strip first = first →
  StudentName.canonical (StudentName.init (last +:+ ", " +:+ first)) =
    Ok (first +:+ " " +:+ last).
Proof.
  intros Hl Hf Hsl Hsf. unfold StudentName.init.
  change (", " +:+ first) with (String "," (String " " first)).
  rewrite (str_split_app_sep "," last (String " " first)) by done.
  rewrite str_split_no_char
    by (apply no_char_cons; split; [discriminate | done]).
  simpl. by rewrite str_strip_blank, Hsl, Hsf.
Qed.

Lemma canonical_first_last last first :
  no_char "," last → no_char "," first →
  StudentName.canonical (StudentName.init (first +:+ " " +:+ last)) =
    Ok (first +:+ " " +:+ last).
Proof.
  intros Hl Hf. apply canonical_no_comma.
  apply no_char_app; split; [done|].
  change (" " +:+ last) with (String " " last).
  apply no_char_cons; split; [discriminate | done].
Qed.

End StudentName_facts.

(** C9, as the code has it.  When neither component holds a comma or
    carries blanks at its ends, the name built from ["last, first"] equals
    the name built from ["first last"] and has the same hash; and every
    constructed name equals its [canonicalize]d form. *)
Theorem StudentName_two_forms (hash_str : string → Z) :
  (∀ last first,
     str_in "," last = false → str_in "," first = false →
     str_strip last = last → str_strip first = first →
     let a := StudentName.init (last +:+ ", " +:+ first) in
     let b := StudentName.init (first +:+ " " +:+ last) in
     StudentName.eq a b = Ok true ∧
     ∃ h, StudentName.hash hash_str a = Ok h ∧
          StudentName.hash hash_str b = Ok h) ∧
  (∀ name,
     ∃ s, StudentName.canonicalize (StudentName.init name) = Ok s ∧
          StudentName.eq s (StudentName.init name) = Ok true).
Proof.
  split.
  - intros last first Hl Hf Hsl Hsf a b. subst a b.
    unfold StudentName.eq, StudentName.hash.
    rewrite canonical_last_first, canonical_first_last by done. simpl.
    split; [by rewrite bool_decide_eq_true_2 | eauto].
  - intros name. unfold StudentName.canonicalize, StudentName.eq.
    destruct (canonical_init name) as (c & Hc & [Hno | [Hinit ->]]).
    + rewrite Hc. simpl. eexists; split; [done|].
      rewrite canonical_no_comma by done. simpl.
      by rewrite bool_decide_eq_true_2.
    + rewrite Hc. simpl. eexists; split; [done|].
      rewrite Hc. simpl. by rewrite bool_decide_eq_true_2.
Qed.

Lemma StudentName_two_forms_witness :
  StudentName.eq (StudentName.init "Doe, Ann") (StudentName.init "Ann Doe")
    = Ok true ∧
  ∃ s, StudentName.canonicalize (StudentName.init "Doe, Ann") = Ok s ∧
       StudentName.eq s (StudentName.init "Doe, Ann") = Ok true.
Proof.
  destruct (StudentName_two_forms (λ _, 0%Z)) as [Hforms Hcanon].
  split.
  - apply (Hforms "Doe" "Ann"); reflexivity.
  - apply (Hcanon "Doe, Ann").
Defined.

(** C9, as stated, fails on a component that holds a comma: the name
    ["Doe, Jr., Ann"] has two commas and is kept as it is, while
    ["Ann Doe, Jr."] has one and is read as last name ["Ann Doe"], first name
    ["Jr."]. *)
Lemma StudentName_two_forms_counterexample :
  let last := "Doe, Jr." in
  let first := "Ann" in
  StudentName.eq (StudentName.init (last +:+ ", " +:+ first))
                 (StudentName.init (first +:+ " " +:+ last)) = Ok false ∧
  StudentName.canonical (StudentName.init (last +:+ ", " +:+ first))
    = Ok "Doe, Jr., Ann" ∧
  StudentName.canonical (StudentName.init (first +:+ " " +:+ last))
    = Ok "Jr. Ann Doe".
Proof. repeat split; reflexivity. Qed.

(** ** Shuffling and dealing *)

Section shuffle_facts.

Context {A : Type}.
Implicit Types (x l : list A) (a b : A).

Lemma insert_lookup_Permutation x j a b :
  x !! j = Some b → b :: <[j := a]> x ≡ₚ a :: x.
Proof.
  revert j. induction x as [|c x IH]; intros [|j] Hj; try done.
  - injection Hj as ->. apply perm_swap.
  - simpl in *. rewrite (perm_swap c b), (IH j Hj). apply perm_swap.
Qed.

Lemma list_swap_Permutation x i j : list_swap x i j ≡ₚ x.
Proof.
  unfold list_swap.
  destruct (x !! i) as [xi|] eqn:Hi; [|done].
  destruct (x !! j) as [xj|] eqn:Hj; [|done].
  revert i j Hi Hj.
  induction x as [|c x IH]; intros [|i] [|j] Hi Hj; try done; simpl in *.
  - by injection Hi as ->.
  - injection Hi as ->. by apply insert_lookup_Permutation.
  - injection Hj as ->. by apply insert_lookup_Permutation.
  - by rewrite (IH i j).
Qed.

Lemma random_shuffle_from_Permutation draws i x :
  random_shuffle_from draws i x ≡ₚ x.
Proof.
  revert draws x. induction i as [|i IH]; intros draws x; [done|].
  simpl. rewrite IH. apply list_swap_Permutation.
Qed.

(** [random.shuffle] rearranges: whatever the generator draws, the result
    is a permutation of the list. *)
Lemma random_shuffle_Permutation draws x : random_shuffle draws x ≡ₚ x.
Proof. apply random_shuffle_from_Permutation. Qed.

Context {B : Type}.
Implicit Types (saved cur : list B).

Lemma zip_cycle_fst saved cur l p :
  p ∈ zip_cycle saved cur l → p.1 ∈ saved ∨ p.1 ∈ cur.
Proof.
  revert cur. induction l as [|a l IH]; intros cur; simpl.
  - by intros ?%elem_of_nil.
  - destruct cur as [|c cur].
    + destruct saved as [|c saved]; [by intros ?%elem_of_nil|].
      intros [->|Hp]%elem_of_cons; [left; left|].
      destruct (IH _ Hp) as [?|?]; [by left | by left; right].
    + intros [->|Hp]%elem_of_cons; [right; left|].
      destruct (IH _ Hp) as [?|?]; [by left | by right; right].
Qed.

Lemma zip_cycle_snd saved cur l :
  saved ≠ [] → (zip_cycle saved cur l).*2 = l.
Proof.
  intros Hsaved. revert cur. induction l as [|a l IH]; intros cur; [done|].
  simpl. destruct cur as [|c cur].
  - destruct saved as [|c saved]; [done|]. simpl. by rewrite IH.
  - simpl. by rewrite IH.
Qed.

End shuffle_facts.

(** ** Group assignment *)

Section Roster_facts.

Implicit Types (m groups : gmap nat (list StudentName.t)).
Implicit Types (s : StudentName.t) (n G : nat).

(** [ngroups] is the ceiling of [n / 5], capped at six. *)
Lemma ngroups_ceil n : Roster.ngroups n = Nat.min 6 ((n + 4) / 5).
Proof.
  unfold Roster.ngroups. f_equal.
  pose proof (Nat.div_mod_eq n 5) as Hn.
  pose proof (Nat.mod_upper_bound n 5 ltac:(lia)) as Hr.
  destruct (decide (n mod 5 = 0)) as [H0|H0].
  - apply (Nat.div_unique _ _ _ 4); lia.
  - apply (Nat.div_unique _ _ _ (n mod 5 - 1)); lia.
Qed.

Lemma ceil_5_spec n : n ≤ 5 * ((n + 4) / 5) ∧ 5 * ((n + 4) / 5) < n + 5.
Proof.
  pose proof (Nat.div_mod_eq (n + 4) 5).
  pose proof (Nat.mod_upper_bound (n + 4) 5 ltac:(lia)). lia.
Qed.

Lemma ngroups_0 n : Roster.ngroups n = 0 ↔ n = 0.
Proof.
  rewrite ngroups_ceil. pose proof (ceil_5_spec n). split; [lia|].
  intros ->. reflexivity.
Qed.

Lemma empty_groups_S G :
  Roster.empty_groups (S G) = <[G + 1 := []]> (Roster.empty_groups G).
Proof. unfold Roster.empty_groups. by rewrite seq_S, foldl_app. Qed.

Lemma empty_groups_lookup G k :
  Roster.empty_groups G !! k =
    if decide (1 ≤ k ≤ G) then Some [] else None.
Proof.
  induction G as [|G IH].
  - rewrite decide_False by lia. apply lookup_empty.
  - rewrite empty_groups_S. destruct (decide (k = G + 1)) as [->|Hne].
    + rewrite lookup_insert_eq, decide_True by lia. done.
    + rewrite lookup_insert_ne, IH by done.
      repeat case_decide; done || lia.
Qed.

Lemma empty_groups_dom G :
  dom (Roster.empty_groups G) = list_to_set (seq 1 G).
Proof.
  apply set_eq. intros k.
  rewrite elem_of_dom, empty_groups_lookup, elem_of_list_to_set, elem_of_seq.
  case_decide; split; intros H'; try (by eexists); try lia.
Qed.

Lemma members_all_nil m :
  (∀ k ms, m !! k = Some ms → ms = []) → members m = [].
Proof.
  intros Hnil. unfold members.
  assert (Forall (λ ms, ms = []) (map_to_list m).*2) as Hall.
  { apply Forall_forall. intros ms [[k ms'] [-> Hin]]%list_elem_of_fmap.
    apply elem_of_map_to_list in Hin. by eapply Hnil. }
  induction Hall as [|ms mss -> _ IH]; [done | by simpl].
Qed.

Lemma members_empty_groups G : members (Roster.empty_groups G) = [].
Proof.
  apply members_all_nil. intros k ms. rewrite empty_groups_lookup.
  case_decide; congruence.
Qed.

Lemma members_insert_fresh m k ms :
  m !! k = None → members (<[k := ms]> m) ≡ₚ ms ++ members m.
Proof.
  intros Hk. unfold members. by rewrite map_to_list_insert.
Qed.

(** Appending a student to a group adds that student, once, to the
    members. *)
Lemma members_append m k ms s :
  m !! k = Some ms → members (<[k := ms ++ [s]]> m) ≡ₚ s :: members m.
Proof.
  intros Hk.
  rewrite <- (insert_delete_eq m), members_insert_fresh
    by apply lookup_delete_eq.
  rewrite <- (insert_delete_id m k ms) at 2 by done.
  rewrite members_insert_fresh by apply lookup_delete_eq.
  rewrite <- app_assoc. simpl. by rewrite <- Permutation_middle.
Qed.

(** The dealing loop does not fail when every group it is asked for is
    there; it keeps the group numbers and adds each dealt student once. *)
Lemma deal_spec pairs m :
  (∀ p, p ∈ pairs → is_Some (m !! (p.1 + 1))) →
  ∃ m', Roster.deal pairs m = Ok m' ∧ dom m' = dom m ∧
        members m' ≡ₚ pairs.*2 ++ members m.
Proof.
  revert m. induction pairs as [|[g s] pairs IH]; intros m Hkeys.
  - by exists m.
  - destruct (Hkeys (g, s)) as [ms Hms]; [left|]. simpl in *.
    unfold Roster.append_to. rewrite Hms. simpl.
    destruct (IH (<[g + 1 := ms ++ [s]]> m)) as (m' & -> & Hdom & Hmem).
    { intros p Hp. destruct (decide (p.1 + 1 = g + 1)) as [->|Hne].
      - rewrite lookup_insert_eq. by eexists.
      - rewrite lookup_insert_ne by done. apply Hkeys. by right. }
    exists m'. split; [done|]. split.
    + rewrite Hdom, dom_insert_L.
      apply elem_of_dom_2 in Hms.
      apply subseteq_union_1_L. by apply singleton_subseteq_l.
    + rewrite Hmem, members_append by done.
      symmetry. apply Permutation_middle.
Qed.

(** [set_groups] never fails, whatever the shuffle does. *)
Lemma set_groups_spec shuffle (self : Roster.t) :
  let G := Roster.ngroups (length (Roster.students self)) in
  ∃ r, Roster.set_groups shuffle self = Ok r ∧
       Roster.section r = Roster.section self ∧
       Roster.students r = shuffle (Roster.students self) ∧
       dom (Roster.groups r) = list_to_set (seq 1 G) ∧
       members (Roster.groups r) ≡ₚ
         (zip_cycle (seq 0 G) (seq 0 G) (shuffle (Roster.students self))).*2.
Proof.
  intros G. unfold Roster.set_groups. fold G.
  destruct (deal_spec
    (zip_cycle (seq 0 G) (seq 0 G) (shuffle (Roster.students self)))
    (Roster.empty_groups G)) as (m' & -> & Hdom & Hmem).
  { intros p Hp. rewrite empty_groups_lookup.
    assert (p.1 ∈ seq 0 G) as Hlt%elem_of_seq
      by (by destruct (zip_cycle_fst _ _ _ _ Hp)).
    rewrite decide_True by lia. by eexists. }
  simpl. eexists; split; [done|]. simpl.
  rewrite Hdom, empty_groups_dom, Hmem, members_empty_groups, app_nil_r.
  done.
Qed.

Lemma size_seq_set G : size (list_to_set (seq 1 G) : gset nat) = G.
Proof. rewrite size_list_to_set by apply NoDup_seq. apply length_seq. Qed.

(** In a list of lists without repetition overall, an element sits in one
    list only. *)
Lemma NoDup_concat_unique {B} (ls : list (list B)) i j l l' b :
  NoDup (concat ls) → ls !! i = Some l → ls !! j = Some l' →
  b ∈ l → b ∈ l' → i = j.
Proof.
  revert i j. induction ls as [|l0 ls IH]; intros i j Hnd Hi Hj Hb Hb'.
  { done. }
  simpl in Hnd. apply NoDup_app in Hnd as (_ & Hdisj & Hnd).
  assert (∀ k lk, ls !! k = Some lk → b ∈ lk → b ∈ concat ls) as Hin.
  { intros k lk Hk Hbk. apply list_elem_of_In, in_concat.
    exists lk. split; apply list_elem_of_In; [|done].
    by eapply list_elem_of_lookup_2. }
  destruct i as [|i], j as [|j]; simpl in *.
  - done.
  - injection Hi as ->. destruct (Hdisj b Hb). by eapply Hin.
  - injection Hj as ->. destruct (Hdisj b Hb'). by eapply Hin.
  - f_equal. by eapply IH.
Qed.

End Roster_facts.

(** C2, as the code has it.  For every student list of size [N], and
    whatever the shuffle, the assignment produces exactly [min(6, k)] groups
    for [k] the ceiling of [N / 5], whether or not [N] is a multiple of 5;
    that is [N / 5] groups when [N] is a multiple of 5 up to 30, and no
    group when [N = 0]. *)
Theorem set_groups_count shuffle (self : Roster.t) :
  let N := length (Roster.students self) in
  ∃ r k, Roster.set_groups shuffle self = Ok r ∧
         (N ≤ 5 * k ∧ 5 * k < N + 5) ∧
         size (Roster.groups r) = Nat.min 6 k ∧
         (N mod 5 = 0 → N ≤ 30 → size (Roster.groups r) = N / 5) ∧
         (N = 0 → Roster.groups r = ∅).
Proof.
  intros N.
  destruct (set_groups_spec shuffle self) as (r & Hr & _ & _ & Hdom & _).
  fold N in Hdom.
  assert (size (Roster.groups r) = Roster.ngroups N) as Hsize.
  { by rewrite <- size_dom, Hdom, size_seq_set. }
  exists r; exists ((N + 4) / 5).
  split; [done|]. split; [apply ceil_5_spec|].
  split; [by rewrite Hsize, ngroups_ceil|]. split.
  - intros Hmod Hle. rewrite Hsize. unfold Roster.ngroups.
    rewrite decide_True by done.
    pose proof (Nat.div_mod_eq N 5). lia.
  - intros HN. apply map_size_empty_inv. rewrite Hsize. by apply ngroups_0.
Qed.

Lemma set_groups_count_witness :
  ∃ r, Roster.set_groups (random_shuffle sample_draws)
         (Roster.init 12 (class_of 10)) = Ok r ∧
       size (Roster.groups r) = 2.
Proof.
  destruct (set_groups_count (random_shuffle sample_draws)
              (Roster.init 12 (class_of 10)))
    as (r & k & Hr & _ & _ & Hmul & _).
  exists r. split; [exact Hr|].
  apply Hmul; [reflexivity | vm_compute; lia].
Defined.

(** C2, as stated, fails on a class of 35: 35 is a multiple of 5, and the
    assignment makes six groups, not [35 / 5 = 7]. *)
Lemma set_groups_count_counterexample :
  let self := Roster.init 12 (class_of 35) in
  length (Roster.students self) mod 5 = 0 ∧
  length (Roster.students self) / 5 = 7 ∧
  ∃ r, Roster.set_groups (random_shuffle sample_draws) self = Ok r ∧
       size (Roster.groups r) = 6.
Proof.
  split; [reflexivity|]. split; [reflexivity|].
  eexists. split; [vm_compute; reflexivity | vm_compute; reflexivity].
Qed.

(** C3.  After the assignment, whatever permutation the shuffle applies,
    the group numbers are exactly [1 .. G]; the members of all groups
    together are a rearrangement of the student list, so no student is left
    out and none is added or repeated; and when the students are pairwise
    distinct, every student is in exactly one group. *)
Theorem set_groups_partition shuffle (self : Roster.t) :
  (∀ l, shuffle l ≡ₚ l) →
  let G := Roster.ngroups (length (Roster.students self)) in
  ∃ r, Roster.set_groups shuffle self = Ok r ∧
       dom (Roster.groups r) = list_to_set (seq 1 G) ∧
       concat (map_to_list (Roster.groups r)).*2 ≡ₚ Roster.students self ∧
       Roster.students r ≡ₚ Roster.students self ∧
       (∀ s, s ∈ Roster.students self →
             ∃ g ms, Roster.groups r !! g = Some ms ∧ s ∈ ms) ∧
       (NoDup (Roster.students self) →
        ∀ s g g' ms ms',
          Roster.groups r !! g = Some ms → Roster.groups r !! g' = Some ms' →
          s ∈ ms → s ∈ ms' → g = g').
Proof.
  intros Hperm G.
  destruct (set_groups_spec shuffle self) as (r & Hr & _ & Hst & Hdom & Hmem).
  fold G in Hdom, Hmem.
  assert (members (Roster.groups r) ≡ₚ Roster.students self) as Hall.
  { rewrite Hmem. destruct (decide (G = 0)) as [HG|HG].
    - apply ngroups_0, nil_length_inv in HG. rewrite HG.
      pose proof (Hperm []) as Hnil. apply Permutation_nil_r in Hnil.
      by rewrite Hnil.
    - rewrite zip_cycle_snd; [apply Hperm|].
      intros Hseq. apply (f_equal length) in Hseq.
      by rewrite length_seq in Hseq. }
  exists r. split; [done|]. split; [done|]. split; [done|].
  split; [by rewrite Hst|]. split.
  - intros s Hs. rewrite <- Hall in Hs.
    apply list_elem_of_In, in_concat in Hs as (ms & Hms & Hs).
    apply list_elem_of_In, list_elem_of_fmap in Hms as ([g ms'] & -> & Hin).
    apply elem_of_map_to_list in Hin.
    exists g; exists ms'. split; [done | by apply list_elem_of_In].
  - intros Hnd s g g' ms ms' Hg Hg' Hs Hs'.
    rewrite <- Hall in Hnd. unfold members in Hnd.
    apply elem_of_map_to_list, list_elem_of_lookup_1 in Hg as [i Hi].
    apply elem_of_map_to_list, list_elem_of_lookup_1 in Hg' as [j Hj].
    assert (i = j) as ->.
    { eapply (NoDup_concat_unique _ i j ms ms' s Hnd); [| |done|done].
      - by rewrite list_lookup_fmap, Hi.
      - by rewrite list_lookup_fmap, Hj. }
    congruence.
Qed.

Lemma set_groups_partition_witness :
  ∃ r, Roster.set_groups (random_shuffle sample_draws)
         (Roster.init 12 (class_of 23)) = Ok r ∧
       dom (Roster.groups r) = list_to_set (seq 1 5) ∧
       concat (map_to_list (Roster.groups r)).*2 ≡ₚ class_of 23 ∧
       ∀ s g g' ms ms',
         Roster.groups r !! g = Some ms → Roster.groups r !! g' = Some ms' →
         s ∈ ms → s ∈ ms' → g = g'.
Proof.
  destruct (set_groups_partition (random_shuffle sample_draws)
              (Roster.init 12 (class_of 23))
              (random_shuffle_Permutation sample_draws))
    as (r & Hr & Hdom & Hall & _ & _ & Hone).
  exists r. split; [exact Hr|]. split; [exact Hdom|]. split; [exact Hall|].
  apply Hone. apply (bool_decide_unpack _). vm_compute. exact I.
Defined.

(** C8, on the code.  A class of six is split into two groups of three, a
    class of seven into a group of four and one of three, a class of eleven
    into groups of four, four and three: groups of fewer than four members,
    against the comment in [set_groups] that "each group has no less than 4
    people". *)
Lemma set_groups_small_groups :
  let sizes n :=
    r ← Roster.set_groups (random_shuffle sample_draws)
          (Roster.init 12 (class_of n));
    Ok ((λ g, length <$> Roster.groups r !! g) <$> seq 1 4) in
  sizes 6 = Ok [Some 3; Some 3; None; None] ∧
  sizes 7 = Ok [Some 4; Some 3; None; None] ∧
  sizes 11 = Ok [Some 4; Some 4; Some 3; None].
Proof. repeat split; vm_compute; reflexivity. Qed.

(** ** Paths *)

Section path_facts.

Implicit Types (p q d s t u : string).

Lemma str_app_nil_r s : s +:+ "" = s.
Proof.
  induction s as [|a s IH]; [done|]. by rewrite str_app_cons, IH.
Qed.

Lemma str_app_assoc s t u : (s +:+ t) +:+ u = s +:+ t +:+ u.
Proof.
  induction s as [|a s IH]; [done|]. by rewrite !str_app_cons, IH.
Qed.

Lemma str_app_length s t :
  String.length (s +:+ t) = String.length s + String.length t.
Proof.
  induction s as [|a s IH]; [done|]. rewrite str_app_cons. simpl.
  by rewrite IH.
Qed.

Lemma str_app_inv_tail s t u : s +:+ u = t +:+ u → s = t.
Proof.
  revert t. induction s as [|a s IH]; intros [|b t] Heq.
  - done.
  - change (u = String b (t +:+ u)) in Heq.
    apply (f_equal String.length) in Heq. simpl in Heq.
    rewrite str_app_length in Heq. lia.
  - change (String a (s +:+ u) = u) in Heq.
    apply (f_equal String.length) in Heq. simpl in Heq.
    rewrite str_app_length in Heq. lia.
  - rewrite !str_app_cons in Heq. injection Heq as -> Heq.
    f_equal. by apply IH.
Qed.

Lemma substring_all s : String.substring 0 (String.length s) s = s.
Proof. induction s as [|a s IH]; simpl; [done | by f_equal]. Qed.

Lemma substring_split n s :
  n ≤ String.length s →
  String.substring 0 n s +:+ String.substring n (String.length s - n) s = s.
Proof.
  revert n. induction s as [|a s IH]; intros [|n] Hn; simpl in *; try lia.
  - done.
  - rewrite str_app_nil_l. f_equal. apply substring_all.
  - rewrite str_app_cons. f_equal. apply IH. lia.
Qed.

Lemma str_rfind_from_range c s (i : Z) :
  str_rfind_from c s i = (-1)%Z ∨
  (i ≤ str_rfind_from c s i < i + Z.of_nat (String.length s))%Z.
Proof.
  revert i. induction s as [|a s IH]; intros i; simpl; [by left|].
  destruct (IH (i + 1)%Z) as [->|Hr]; simpl.
  - destruct (Ascii.eqb a c); [right; lia | by left].
  - destruct (Z.leb_spec 0 (str_rfind_from c s (i + 1))); [right; lia|].
    destruct (Ascii.eqb a c); [right; lia | by left].
Qed.

(** The two parts [os.path.splitext] returns make up the path. *)
Lemma os_path_splitext_app p :
  (os_path_splitext p).1 +:+ (os_path_splitext p).2 = p.
Proof.
  unfold os_path_splitext.
  destruct (Z.ltb_spec (str_rfind "/" p) (str_rfind "." p)) as [Hlt|];
    [|apply str_app_nil_r].
  destruct (str_all _ _); [apply str_app_nil_r|]. simpl. unfold str_slice.
  destruct (str_rfind_from_range "/" p 0) as [Hsep|Hsep];
    destruct (str_rfind_from_range "." p 0) as [Hdot|Hdot];
    unfold str_rfind in *; try lia.
  - rewrite Z.sub_0_r. simpl.
    replace (Z.to_nat (Z.of_nat (String.length p) - str_rfind_from "." p 0))
      with (String.length p - Z.to_nat (str_rfind_from "." p 0)) by lia.
    apply substring_split. lia.
  - rewrite Z.sub_0_r. simpl.
    replace (Z.to_nat (Z.of_nat (String.length p) - str_rfind_from "." p 0))
      with (String.length p - Z.to_nat (str_rfind_from "." p 0)) by lia.
    apply substring_split. lia.
Qed.

Lemma rooted_app s t :
  rooted (s +:+ t) = if decide (s = "") then rooted t else rooted s.
Proof. destruct s as [|a s]; [done|]. by destruct t. Qed.

(** Two paths that are both rooted or both relative stay so, and stay
    apart, when joined to a directory or looked up from the working
    directory. *)
Lemma os_path_join_rooted d p q :
  rooted p = rooted q → rooted (os_path_join d p) = rooted (os_path_join d q).
Proof.
  intros Hpq. unfold os_path_join. fold (rooted p) (rooted q).
  rewrite <- Hpq. destruct (rooted p) eqn:Hp; [congruence|].
  destruct (String.eqb d "" || str_endswith "/" d).
  - rewrite !rooted_app. case_decide; congruence.
  - rewrite !rooted_app. repeat case_decide; congruence.
Qed.

Lemma os_path_join_inj d p q :
  rooted p = rooted q → os_path_join d p = os_path_join d q → p = q.
Proof.
  intros Hpq. unfold os_path_join. fold (rooted p) (rooted q).
  rewrite <- Hpq. destruct (rooted p); [done|].
  destruct (String.eqb d "" || str_endswith "/" d); intros Heq.
  - by apply (inj (String.app d)) in Heq.
  - apply (inj (String.app d)) in Heq. by injection Heq.
Qed.

Lemma abspath_inj w p q :
  rooted p = rooted q → abspath w p = abspath w q → p = q.
Proof.
  intros Hpq. unfold abspath. fold (rooted p) (rooted q).
  rewrite <- Hpq. destruct (rooted p) eqn:Hp; [done|].
  apply os_path_join_inj. congruence.
Qed.

Lemma abspath_join_inj w d p q :
  rooted p = rooted q →
  abspath w (os_path_join d p) = abspath w (os_path_join d q) → p = q.
Proof.
  intros Hpq Heq. apply abspath_inj in Heq; [|by apply os_path_join_rooted].
  by apply os_path_join_inj in Heq.
Qed.

Lemma os_path_exists_occupied w p :
  os_path_exists w p = true ↔ abspath w p ∈ occupied w.
Proof.
  unfold os_path_exists, occupied.
  rewrite orb_true_iff, !bool_decide_eq_true, elem_of_union. done.
Qed.

(** An extension holds no slash, so that a path and the path without its
    extension lie in the same directory. *)
Lemma str_rfind_from_app c s e :
  (∀ j, str_rfind_from c e j = (-1)%Z) →
  ∀ i, str_rfind_from c (s +:+ e) i = str_rfind_from c s i.
Proof.
  intros He. induction s as [|a s IH]; intros i.
  - rewrite str_app_nil_l. simpl. apply He.
  - rewrite str_app_cons. simpl. by rewrite IH.
Qed.

Lemma substring_app_l n s e :
  n ≤ String.length s →
  String.substring 0 n (s +:+ e) = String.substring 0 n s.
Proof.
  revert n. induction s as [|a s IH]; intros [|n] Hn; simpl in *; try lia.
  - rewrite str_app_nil_l. by destruct e.
  - done.
  - f_equal. apply IH. lia.
Qed.

Lemma os_path_dirname_app s e :
  (∀ j, str_rfind_from "/" e j = (-1)%Z) →
  os_path_dirname (s +:+ e) = os_path_dirname s.
Proof.
  intros He. unfold os_path_dirname, str_rfind, str_slice.
  rewrite str_rfind_from_app by done.
  rewrite substring_app_l; [done|].
  destruct (str_rfind_from_range "/" s 0); lia.
Qed.

Lemma os_path_join_app d p e :
  rooted e = false → os_path_join d (p +:+ e) = os_path_join d p +:+ e.
Proof.
  intros He. unfold os_path_join. fold (rooted (p +:+ e)) (rooted p).
  rewrite rooted_app, He.
  assert ((if decide (p = "") then false else rooted p) = rooted p) as ->.
  { case_decide; [by subst|done]. }
  destruct (rooted p); [done|].
  destruct (String.eqb d "" || str_endswith "/" d);
    by rewrite ?str_app_assoc.
Qed.

Lemma abspath_app w p e :
  rooted e = false → abspath w (p +:+ e) = abspath w p +:+ e.
Proof.
  intros He. unfold abspath. fold (rooted (p +:+ e)) (rooted p).
  rewrite rooted_app, He.
  assert ((if decide (p = "") then false else rooted p) = rooted p) as ->.
  { case_decide; [by subst|done]. }
  destruct (rooted p); [done|]. by apply os_path_join_app.
Qed.

End path_facts.

(** ** The output-name resolver *)

Section resolver_facts.

Context (w : world) (prefix ext : string).

Lemma alt_path_inj i j : alt_path prefix i ext = alt_path prefix j ext → i = j.
Proof.
  unfold alt_path. intros Heq.
  apply (inj (String.app prefix)) in Heq. injection Heq as Heq.
  rewrite !str_app_nil_l in Heq. apply str_app_inv_tail in Heq.
  by apply (inj pretty) in Heq.
Qed.

Lemma alt_path_rooted i j :
  rooted (alt_path prefix i ext) = rooted (alt_path prefix j ext).
Proof. unfold alt_path. rewrite !rooted_app. by case_decide. Qed.

Lemma abspath_alt_path_inj i j :
  abspath w (alt_path prefix i ext) = abspath w (alt_path prefix j ext) →
  i = j.
Proof.
  intros Heq. apply abspath_inj in Heq; [|apply alt_path_rooted].
  by apply alt_path_inj.
Qed.

(** Among the first [n] candidates either all are in use or there is a
    first free one. *)
Lemma first_free_upto n :
  (∀ j, 1 ≤ j ≤ n → os_path_exists w (alt_path prefix j ext) = true) ∨
  ∃ k, 1 ≤ k ≤ n ∧ os_path_exists w (alt_path prefix k ext) = false ∧
       ∀ j, 1 ≤ j < k → os_path_exists w (alt_path prefix j ext) = true.
Proof.
  induction n as [|n [IH|(k & Hk & Hfree & Hbelow)]].
  - left. lia.
  - destruct (os_path_exists w (alt_path prefix (S n) ext)) eqn:Hn.
    + left. intros j Hj. destruct (decide (j = S n)) as [->|]; [done|].
      apply IH. lia.
    + right. exists (S n). split; [lia|]. split; [done|].
      intros j Hj. apply IH. lia.
  - right. exists k. split; [lia | done].
Qed.

(** The candidates cannot all be in use: they are pairwise distinct and the
    file system is finite. *)
Lemma first_free_exists :
  ∃ k, 1 ≤ k ≤ S (size (occupied w)) ∧
       os_path_exists w (alt_path prefix k ext) = false ∧
       ∀ j, 1 ≤ j < k → os_path_exists w (alt_path prefix j ext) = true.
Proof.
  destruct (first_free_upto (S (size (occupied w)))) as [Hall|?]; [|done].
  exfalso.
  set (f := λ j : nat, abspath w (alt_path prefix j ext)).
  assert (Inj (=) (=) f) as Hinj
    by (intros i j ?; by apply abspath_alt_path_inj).
  assert (list_to_set (f <$> seq 1 (S (size (occupied w)))) ⊆ occupied w)
    as Hsub.
  { intros q [j [-> Hj%elem_of_seq]]%elem_of_list_to_set%list_elem_of_fmap.
    apply os_path_exists_occupied, Hall. lia. }
  apply subseteq_size in Hsub.
  rewrite size_list_to_set, length_fmap, length_seq in Hsub; [lia|].
  apply (NoDup_fmap_2 f), NoDup_seq.
Qed.

Lemma count_loop_finds fuel i k :
  i ≤ k → k - i < fuel →
  (∀ j, i ≤ j < k → os_path_exists w (alt_path prefix j ext) = true) →
  os_path_exists w (alt_path prefix k ext) = false →
  count_loop fuel i prefix ext w = Some (alt_path prefix k ext).
Proof.
  revert i. induction fuel as [|fuel IH]; intros i Hik Hfuel Hbelow Hfree.
  { lia. }
  simpl. destruct (decide (i = k)) as [->|Hne].
  - by rewrite Hfree.
  - rewrite Hbelow by lia. simpl. apply IH; [lia | lia | | done].
    intros j Hj. apply Hbelow. lia.
Qed.

End resolver_facts.

(** The path is kept when overwriting is allowed or nothing is at it. *)
Lemma maybe_overwrite_path_kept w fpath inplace fuel :
  inplace = true ∨ os_path_exists w fpath = false →
  maybe_overwrite_path fuel fpath inplace w = Some fpath.
Proof.
  unfold maybe_overwrite_path. destruct (os_path_splitext fpath).
  intros [-> | ->]; [by rewrite andb_false_r | done].
Qed.

(** Otherwise the search finds the first free candidate. *)
Lemma maybe_overwrite_path_search w fpath :
  os_path_exists w fpath = true →
  let prefix := (os_path_splitext fpath).1 in
  let ext := (os_path_splitext fpath).2 in
  ∃ k, 1 ≤ k ≤ S (size (occupied w)) ∧
       os_path_exists w (alt_path prefix k ext) = false ∧
       (∀ j, 1 ≤ j < k → os_path_exists w (alt_path prefix j ext) = true) ∧
       ∀ fuel, k ≤ fuel →
         maybe_overwrite_path fuel fpath false w
           = Some (alt_path prefix k ext).
Proof.
  intros Hexists prefix ext. unfold maybe_overwrite_path.
  destruct (os_path_splitext fpath) as [pre ex]. subst prefix ext.
  rewrite Hexists. simpl.
  destruct (first_free_exists w pre ex) as (k & Hk & Hfree & Hbelow).
  exists k. split; [done|]. split; [done|]. split; [done|].
  intros fuel Hfuel. apply count_loop_finds; (done || lia).
Qed.

(** C5.  The path handed to [write_to_path] is the given path when
    overwriting is allowed or nothing exists at it; otherwise it is the
    first of the candidates [prefix(1)ext], [prefix(2)ext], ... that does
    not exist, where [prefix] and [ext] are the path without its extension
    and the extension.  The search always ends: some candidate no later than
    the number of paths in use plus one is free. *)
Theorem maybe_overwrite_path_spec (w : world) (fpath : string) (inplace : bool) :
  let prefix := (os_path_splitext fpath).1 in
  let ext := (os_path_splitext fpath).2 in
  prefix +:+ ext = fpath ∧
  (inplace = true ∨ os_path_exists w fpath = false →
   ∀ fuel, maybe_overwrite_path fuel fpath inplace w = Some fpath) ∧
  (inplace = false → os_path_exists w fpath = true →
   ∃ k, 1 ≤ k ≤ S (size (occupied w)) ∧
        os_path_exists w (alt_path prefix k ext) = false ∧
        (∀ j, 1 ≤ j < k → os_path_exists w (alt_path prefix j ext) = true) ∧
        ∀ fuel, k ≤ fuel →
          maybe_overwrite_path fuel fpath inplace w
            = Some (alt_path prefix k ext)).
Proof.
  intros prefix ext. split; [apply os_path_splitext_app|]. split.
  - intros Hkept fuel. by apply maybe_overwrite_path_kept.
  - intros -> Hexists. by apply maybe_overwrite_path_search.
Qed.

Lemma maybe_overwrite_path_spec_witness :
  let taken names : gmap string string := gset_to_gmap "data" names in
  maybe_overwrite_path 0 "/out/report.pdf" true
    (sample_world (taken {["/out/report.pdf"]})) = Some "/out/report.pdf" ∧
  maybe_overwrite_path 0 "/out/report.pdf" false
    (sample_world (taken ∅)) = Some "/out/report.pdf" ∧
  maybe_overwrite_path 1 "/out/report.pdf" false
    (sample_world (taken {["/out/report.pdf"]})) = Some "/out/report(1).pdf" ∧
  maybe_overwrite_path 2 "/out/report.pdf" false
    (sample_world (taken {["/out/report.pdf"; "/out/report(1).pdf"]}))
    = Some "/out/report(2).pdf".
Proof.
  intros taken. split; [|split; [|split]].
  - apply (maybe_overwrite_path_spec
             (sample_world (taken {["/out/report.pdf"]}))
             "/out/report.pdf" true). by left.
  - apply (maybe_overwrite_path_spec (sample_world (taken ∅))
             "/out/report.pdf" false). by right.
  - destruct (maybe_overwrite_path_spec
                (sample_world (taken {["/out/report.pdf"]}))
                "/out/report.pdf" false) as (_ & _ & Hsearch).
    destruct Hsearch as (k & Hk & Hfree & Hbelow & Hfound);
      [reflexivity | reflexivity |].
    destruct (decide (k = 1)) as [->|Hne]; [by apply Hfound|].
    pose proof (Hbelow 1 ltac:(lia)) as H1. vm_compute in H1. discriminate.
  - destruct (maybe_overwrite_path_spec
                (sample_world
                   (taken {["/out/report.pdf"; "/out/report(1).pdf"]}))
                "/out/report.pdf" false) as (_ & _ & Hsearch).
    destruct Hsearch as (k & Hk & Hfree & Hbelow & Hfound);
      [reflexivity | reflexivity |].
    destruct (decide (k = 1)) as [->|H1];
      [vm_compute in Hfree; discriminate|].
    destruct (decide (k = 2)) as [->|H2]; [by apply Hfound|].
    pose proof (Hbelow 2 ltac:(lia)) as H3. vm_compute in H3. discriminate.
Defined.

(** ** The world under the primitives *)

Section world_facts.

Implicit Types (w : world) (e : event) (p src dst : string).

Lemma files_record e w : files (record e w) = files w.
Proof. reflexivity. Qed.
Lemma dirs_record e w : dirs (record e w) = dirs w.
Proof. reflexivity. Qed.
Lemma trace_record e w : trace (record e w) = trace w ++ [e].
Proof. reflexivity. Qed.
Lemma abspath_record e w p : abspath (record e w) p = abspath w p.
Proof. reflexivity. Qed.
Lemma files_set_files f w : files (set_files f w) = f.
Proof. reflexivity. Qed.
Lemma dirs_set_files f w : dirs (set_files f w) = dirs w.
Proof. reflexivity. Qed.
Lemma trace_set_files f w : trace (set_files f w) = trace w.
Proof. reflexivity. Qed.
Lemma abspath_set_files f w p : abspath (set_files f w) p = abspath w p.
Proof. reflexivity. Qed.
Lemma files_set_dirs d w : files (set_dirs d w) = files w.
Proof. reflexivity. Qed.
Lemma dirs_set_dirs d w : dirs (set_dirs d w) = d.
Proof. reflexivity. Qed.
Lemma trace_set_dirs d w : trace (set_dirs d w) = trace w.
Proof. reflexivity. Qed.
Lemma abspath_set_dirs d w p : abspath (set_dirs d w) p = abspath w p.
Proof. reflexivity. Qed.

Lemma shutil_move_Some src dst w content :
  files w !! abspath w src = Some content →
  dir_exists w (os_path_dirname (abspath w dst)) = true →
  shutil_move src dst w =
    Ok (tt, record (EvMove src dst)
              (set_files (<[abspath w dst := content]>
                            (delete (abspath w src) (files w))) w)).
Proof. intros H Hdir. unfold shutil_move. by rewrite H, Hdir. Qed.

Lemma shutil_move_nowhere src dst w content :
  files w !! abspath w src = Some content →
  dir_exists w (os_path_dirname (abspath w dst)) = false →
  shutil_move src dst w = Raise (FileNotFoundError dst).
Proof. intros H Hdir. unfold shutil_move. by rewrite H, Hdir. Qed.

Lemma shutil_move_None src dst w :
  files w !! abspath w src = None →
  shutil_move src dst w = Raise (FileNotFoundError src).
Proof. intros H. unfold shutil_move. by rewrite H. Qed.

Lemma exited_trace info w :
  trace (exited info w) =
    trace w ++ [EvChdir (PDFWriter.tmp info);
                EvWait (pid (PDFWriter.proc info))].
Proof. unfold exited. simpl. by rewrite <- app_assoc. Qed.

Lemma exited_dirs info w : dirs (exited info w) = dirs w.
Proof. reflexivity. Qed.

(** Where [name] is looked up keeps the end of [name]. *)
Lemma located_shape w d f ext :
  ∃ y, abspath w (os_path_join d (f +:+ ext)) = y +:+ ext.
Proof.
  assert (∀ b, ∃ y, os_path_join d b = y +:+ b) as Hjoin.
  { intros b. unfold os_path_join. destruct (str_startswith "/" b).
    - by exists "".
    - destruct (_ || _); [by exists d|].
      exists (d +:+ "/"). by rewrite str_app_assoc. }
  assert (∀ b, ∃ y, abspath w b = y +:+ b) as Habs.
  { intros b. unfold abspath. destruct (str_startswith "/" b).
    - by exists "".
    - unfold os_path_join. destruct (str_startswith "/" b); [by exists ""|].
      destruct (_ || _); [by exists (cwd w)|].
      exists (cwd w +:+ "/"). by rewrite str_app_assoc. }
  destruct (Hjoin (f +:+ ext)) as [y1 ->].
  destruct (Habs (y1 +:+ f +:+ ext)) as [y2 ->].
  exists (y2 +:+ y1 +:+ f). by rewrite !str_app_assoc.
Qed.

Lemma str_app_inv_suffix (s t e1 e2 : string) :
  String.length e1 = String.length e2 → s +:+ e1 = t +:+ e2 → e1 = e2.
Proof.
  intros Hlen. revert t. induction s as [|a s IH]; intros [|b t] Heq.
  - done.
  - change (e1 = String b (t +:+ e2)) in Heq.
    apply (f_equal String.length) in Heq. simpl in Heq.
    rewrite str_app_length in Heq. lia.
  - change (String a (s +:+ e1) = e2) in Heq.
    apply (f_equal String.length) in Heq. simpl in Heq.
    rewrite str_app_length in Heq. lia.
  - rewrite !str_app_cons in Heq. injection Heq as _ Heq. by eapply IH.
Qed.

(** Files with different extensions of the same length sit at different
    places. *)
Lemma located_ne w w' d d' f f' ext ext' :
  String.length ext = String.length ext' → ext ≠ ext' →
  abspath w (os_path_join d (f +:+ ext))
    ≠ abspath w' (os_path_join d' (f' +:+ ext')).
Proof.
  intros Hlen Hne.
  destruct (located_shape w d f ext) as [y ->].
  destruct (located_shape w' d' f' ext') as [y' ->].
  intros Heq. by apply str_app_inv_suffix in Heq.
Qed.

End world_facts.

Create Rewrite HintDb world.
#[global] Hint Rewrite files_record dirs_record trace_record abspath_record
  files_set_files dirs_set_files trace_set_files abspath_set_files
  files_set_dirs dirs_set_dirs trace_set_dirs abspath_set_dirs : world.

(** ** Collection *)

Section clean_facts.

Context (fname : string) (info : PDFWriter.info) (w : world).

Let tmp := PDFWriter.tmp info.
Let parent := PDFWriter.parent info.
Let stdout := out_stdout (poutcome (PDFWriter.proc info)).
Let scratch (ext : string) := os_path_join tmp (fname +:+ ext).
Let dest (ext : string) := os_path_join parent (fname +:+ ext).
Let w1 := exited info w.

(** [clean_job] after the process has exited. *)
Lemma clean_job_exited :
  PDFWriter.clean_job fname info w =
    (if str_in "error" stdout || str_in "Error" stdout then
       (if str_in "not found" stdout
        then print (PDFWriter.missing_package_line fname)
        else print (PDFWriter.see_log_line fname));;
       shutil_move (scratch ".log") (dest ".log");;
       shutil_move (scratch ".tex") (dest ".tex")
     else
       shutil_move (scratch ".pdf") (dest ".pdf");;
       tmp_cleanup tmp) w1.
Proof. reflexivity. Qed.

(** The three files of a job go to the same directory. *)
Lemma dest_located ext :
  rooted ext = false → (∀ j, str_rfind_from "/" ext j = (-1)%Z) →
  ∀ w', cwd w' = cwd w1 →
  os_path_dirname (abspath w' (dest ext)) = dest_dir fname info w.
Proof.
  intros Hrel Hext w' Hcwd. unfold dest_dir, dest. fold parent w1.
  rewrite os_path_join_app by done.
  assert (abspath w' (os_path_join parent fname +:+ ext) =
          abspath w1 (os_path_join parent fname) +:+ ext) as ->.
  { rewrite abspath_app by done. unfold abspath. by rewrite Hcwd. }
  by apply os_path_dirname_app.
Qed.

(** The failure branch: a line is printed, the log and the source are moved,
    and nothing else happens. *)
Lemma clean_job_failure log_text tex_text :
  str_in "error" stdout || str_in "Error" stdout = true →
  dir_exists w (dest_dir fname info w) = true →
  in_scratch info w (fname +:+ ".log") = Some log_text →
  in_scratch info w (fname +:+ ".tex") = Some tex_text →
  ∃ w', PDFWriter.clean_job fname info w = Ok (tt, w') ∧
        trace w' = trace w ++
          [EvChdir tmp; EvWait (pid (PDFWriter.proc info));
           EvPrint (if str_in "not found" stdout
                    then PDFWriter.missing_package_line fname
                    else PDFWriter.see_log_line fname);
           EvMove (scratch ".log") (dest ".log");
           EvMove (scratch ".tex") (dest ".tex")] ∧
        dirs w' = dirs w ∧
        files w' !! abspath w' (dest ".log") = Some log_text ∧
        files w' !! abspath w' (dest ".tex") = Some tex_text.
Proof.
  intros Hfail Hdir Hlog Htex. rewrite clean_job_exited, Hfail.
  unfold in_scratch in Hlog, Htex. fold w1 tmp scratch in Hlog, Htex.
  set (line := if str_in "not found" stdout
               then PDFWriter.missing_package_line fname
               else PDFWriter.see_log_line fname).
  assert ((if str_in "not found" stdout
           then print (PDFWriter.missing_package_line fname)
           else print (PDFWriter.see_log_line fname)) = print line) as ->
    by (subst line; by destruct (str_in "not found" stdout)).
  unfold mbind, M_bind. unfold print at 1.
  rewrite (shutil_move_Some _ _ _ log_text); [|done|].
  2:{ rewrite (dest_located ".log") by done. exact Hdir. }
  rewrite (shutil_move_Some _ _ _ tex_text).
  2:{ autorewrite with world.
      rewrite lookup_insert_ne by (by apply located_ne).
      rewrite lookup_delete_ne by (by apply located_ne). done. }
  2:{ rewrite (dest_located ".tex") by done. exact Hdir. }
  eexists. split; [done|]. autorewrite with world.
  split; [|split; [done|split]].
  - subst w1. rewrite exited_trace, <- !app_assoc. done.
  - rewrite lookup_insert_ne by (by apply located_ne).
    rewrite lookup_delete_ne by (by apply located_ne).
    by rewrite lookup_insert_eq.
  - by rewrite lookup_insert_eq.
Qed.

(** The success branch: the artifact is moved and the scratch directory is
    removed with all it holds. *)
Lemma clean_job_success pdf_text :
  str_in "error" stdout || str_in "Error" stdout = false →
  dir_exists w (dest_dir fname info w) = true →
  in_scratch info w (fname +:+ ".pdf") = Some pdf_text →
  ∃ w', PDFWriter.clean_job fname info w = Ok (tt, w') ∧
        trace w' = trace w ++
          [EvChdir tmp; EvWait (pid (PDFWriter.proc info));
           EvMove (scratch ".pdf") (dest ".pdf"); EvRmtree tmp] ∧
        (tmp ∉ dirs w') ∧
        (∀ p, is_Some (files w' !! p) →
              str_startswith (tmp +:+ "/") p = false) ∧
        (str_startswith (tmp +:+ "/") (abspath w' (dest ".pdf")) = false →
         files w' !! abspath w' (dest ".pdf") = Some pdf_text).
Proof.
  intros Hok Hdir Hpdf. rewrite clean_job_exited, Hok.
  unfold in_scratch in Hpdf. fold w1 tmp scratch in Hpdf.
  unfold mbind, M_bind.
  rewrite (shutil_move_Some _ _ _ pdf_text); [|done|].
  2:{ rewrite (dest_located ".pdf") by done. exact Hdir. }
  unfold tmp_cleanup, rmtree. eexists. split; [done|].
  autorewrite with world.
  split; [|split; [|split]].
  - subst w1. rewrite exited_trace, <- !app_assoc. done.
  - intros [_ Hin]%elem_of_filter.
    apply elem_of_difference in Hin as [_ Hin].
    by apply Hin, elem_of_singleton.
  - intros p [c [_ Hp]%map_lookup_filter_Some]. simpl in Hp.
    by destruct (str_startswith (tmp +:+ "/") p).
  - intros Hout. apply map_lookup_filter_Some. split.
    + by rewrite lookup_insert_eq.
    + simpl. by rewrite Hout.
Qed.

(** [clean] handles the retained jobs one after the other, in the order of
    their first submission, and stops at the first that raises. *)
Lemma clean_loop_cons items :
  PDFWriter.clean_loop ((fname, info) :: items) w =
    match PDFWriter.clean_job fname info w with
    | Ok (_, w') => PDFWriter.clean_loop items w'
    | Raise e => Raise e
    end.
Proof. reflexivity. Qed.

(** Without the destination directory no file is moved. *)
Lemma clean_job_nowhere :
  dir_exists w (dest_dir fname info w) = false →
  ∃ p, PDFWriter.clean_job fname info w = Raise (FileNotFoundError p).
Proof.
  intros Hdir. rewrite clean_job_exited.
  destruct (str_in "error" stdout || str_in "Error" stdout).
  - set (line := if str_in "not found" stdout
                 then PDFWriter.missing_package_line fname
                 else PDFWriter.see_log_line fname).
    assert ((if str_in "not found" stdout
             then print (PDFWriter.missing_package_line fname)
             else print (PDFWriter.see_log_line fname)) = print line) as ->
      by (subst line; by destruct (str_in "not found" stdout)).
    unfold mbind, M_bind. unfold print at 1.
    destruct (files w1 !! abspath w1 (scratch ".log")) as [c|] eqn:Hlog.
    + exists (dest ".log"). rewrite (shutil_move_nowhere _ _ _ c); [done|done|].
      rewrite (dest_located ".log") by done. exact Hdir.
    + exists (scratch ".log"). by rewrite shutil_move_None.
  - unfold mbind, M_bind.
    destruct (files w1 !! abspath w1 (scratch ".pdf")) as [c|] eqn:Hpdf.
    + exists (dest ".pdf"). rewrite (shutil_move_nowhere _ _ _ c); [done|done|].
      rewrite (dest_located ".pdf") by done. exact Hdir.
    + exists (scratch ".pdf"). by rewrite shutil_move_None.
Qed.

(** A missing file stops the collection. *)
Lemma clean_job_no_log :
  str_in "error" stdout || str_in "Error" stdout = true →
  in_scratch info w (fname +:+ ".log") = None →
  PDFWriter.clean_job fname info w
    = Raise (FileNotFoundError (scratch ".log")).
Proof.
  intros Hfail Hlog. rewrite clean_job_exited, Hfail.
  unfold in_scratch in Hlog. fold w1 tmp scratch in Hlog.
  unfold mbind, M_bind.
  by destruct (str_in "not found" stdout); unfold print at 1;
    rewrite shutil_move_None.
Qed.

Lemma clean_job_no_tex :
  str_in "error" stdout || str_in "Error" stdout = true →
  dir_exists w (dest_dir fname info w) = true →
  is_Some (in_scratch info w (fname +:+ ".log")) →
  in_scratch info w (fname +:+ ".tex") = None →
  PDFWriter.clean_job fname info w
    = Raise (FileNotFoundError (scratch ".tex")).
Proof.
  intros Hfail Hdir [c Hlog] Htex. rewrite clean_job_exited, Hfail.
  unfold in_scratch in Hlog, Htex. fold w1 tmp scratch in Hlog, Htex.
  unfold mbind, M_bind.
  destruct (str_in "not found" stdout); unfold print at 1;
    (rewrite (shutil_move_Some _ _ _ c);
       [|done|rewrite (dest_located ".log") by done; exact Hdir]);
    apply shutil_move_None; autorewrite with world;
    rewrite lookup_insert_ne by (by apply located_ne);
    by rewrite lookup_delete_ne by (by apply located_ne).
Qed.

Lemma clean_job_no_pdf :
  str_in "error" stdout || str_in "Error" stdout = false →
  in_scratch info w (fname +:+ ".pdf") = None →
  PDFWriter.clean_job fname info w
    = Raise (FileNotFoundError (scratch ".pdf")).
Proof.
  intros Hok Hpdf. rewrite clean_job_exited, Hok.
  unfold in_scratch in Hpdf. fold w1 tmp scratch in Hpdf.
  unfold mbind, M_bind. by rewrite shutil_move_None.
Qed.

(** A relocation that finds no file or no directory raises, and that is the
    only way [clean_job] fails. *)
Lemma clean_job_cases :
  (∃ p, PDFWriter.clean_job fname info w = Raise (FileNotFoundError p)) ∨
  (∃ w' tail, PDFWriter.clean_job fname info w = Ok (tt, w') ∧
     trace w' = trace w ++
       [EvChdir tmp; EvWait (pid (PDFWriter.proc info))] ++ tail ∧
     Forall quiet tail).
Proof.
  destruct (dir_exists w (dest_dir fname info w)) eqn:Hdir;
    [|left; by apply clean_job_nowhere].
  destruct (str_in "error" stdout || str_in "Error" stdout) eqn:Hfail.
  - destruct (in_scratch info w (fname +:+ ".log")) as [c|] eqn:Hlog.
    + destruct (in_scratch info w (fname +:+ ".tex")) as [c'|] eqn:Htex.
      * destruct (clean_job_failure c c') as (w' & -> & Htr & _); try done.
        right. exists w'. eexists. split; [done|]. split; [exact Htr|].
        repeat constructor.
      * left. exists (scratch ".tex"). by apply clean_job_no_tex.
    + left. exists (scratch ".log"). by apply clean_job_no_log.
  - destruct (in_scratch info w (fname +:+ ".pdf")) as [c|] eqn:Hpdf.
    + destruct (clean_job_success c) as (w' & -> & Htr & _); try done.
      right. exists w'. eexists. split; [done|]. split; [exact Htr|].
      repeat constructor.
    + left. exists (scratch ".pdf"). by apply clean_job_no_pdf.
Qed.

End clean_facts.

(** The records that [clean] and [call_ext] let go of. *)
Section drop_facts.

Lemma drop_records_after items w :
  PDFWriter.drop_records items w = Ok (tt, after_drop items w).
Proof.
  revert w. induction items as [|[fname info] items IH]; intros w; [done|].
  change (after_drop ((fname, info) :: items) w)
    with (after_drop items (rmtree (PDFWriter.tmp info) w)).
  cbn [PDFWriter.drop_records].
  unfold mbind, M_bind, tmp_finalize. apply IH.
Qed.

Lemma after_drop_frame items w :
  trace (after_drop items w) = trace w ∧
  cwd (after_drop items w) = cwd w ∧
  executables (after_drop items w) = executables w ∧
  compiler (after_drop items w) = compiler w ∧
  next_tmp (after_drop items w) = next_tmp w ∧
  next_pid (after_drop items w) = next_pid w.
Proof.
  revert w. induction items as [|[fname info] items IH]; intros w; [done|].
  change (after_drop ((fname, info) :: items) w)
    with (after_drop items (rmtree (PDFWriter.tmp info) w)).
  destruct (IH (rmtree (PDFWriter.tmp info) w))
    as (H1 & H2 & H3 & H4 & H5 & H6).
  rewrite H1, H2, H3, H4, H5, H6. done.
Qed.

(** Dropping records only removes. *)
Lemma after_drop_dirs items w d :
  d ∈ dirs (after_drop items w) → d ∈ dirs w.
Proof.
  revert w. induction items as [|[fname info] items IH]; intros w; [done|].
  change (after_drop ((fname, info) :: items) w)
    with (after_drop items (rmtree (PDFWriter.tmp info) w)).
  intros Hd%IH. unfold rmtree in Hd.
  autorewrite with world in Hd.
  apply elem_of_filter in Hd as [_ Hd].
  by apply elem_of_difference in Hd as [Hd _].
Qed.

(** The scratch directory of a dropped record is gone. *)
Lemma after_drop_gone items w fname info :
  (fname, info) ∈ items → PDFWriter.tmp info ∉ dirs (after_drop items w).
Proof.
  revert w. induction items as [|[fname' info'] items IH]; intros w Hin;
    [by apply elem_of_nil in Hin|].
  change (after_drop ((fname', info') :: items) w)
    with (after_drop items (rmtree (PDFWriter.tmp info') w)).
  apply elem_of_cons in Hin as [[= <- <-]|Hin].
  - intros Hd%after_drop_dirs. unfold rmtree in Hd.
    autorewrite with world in Hd.
    apply elem_of_filter in Hd as [_ Hd].
    apply elem_of_difference in Hd as [_ Hd].
    by apply Hd, elem_of_singleton.
  - by apply IH.
Qed.

End drop_facts.




(** ** Submission *)

Section write_facts.

Implicit Types (self : PDFWriter.t) (w : world) (tr tail : list event).

Lemma in_flight_from_app running tr tail :
  in_flight_from running (tr ++ tail) =
    in_flight_from (in_flight_from running tr) tail.
Proof.
  revert running. induction tr as [|e tr IH]; intros running; [done|].
  destruct e; simpl; apply IH.
Qed.

Lemma in_flight_app tr tail :
  in_flight (tr ++ tail) = in_flight_from (in_flight tr) tail.
Proof. apply in_flight_from_app. Qed.

Lemma in_flight_from_quiet running tail :
  Forall quiet tail → in_flight_from running tail = running.
Proof.
  induction 1 as [|e tail He _ IH]; [done|]. by destruct e.
Qed.

(** [call_ext] up to the launch: a scratch directory is made and entered,
    the source is written, the compiler is started, and the job is retained
    under [fname]. *)
Lemma call_ext_launch self cmd parent fname src w :
  ∃ info wl,
    PDFWriter.tmp info = "/tmp/tmp" +:+ pretty (next_tmp w) ∧
    PDFWriter.parent info = parent ∧
    pid (PDFWriter.proc info) = next_pid w ∧
    trace wl = trace w ++
      [EvChdir (PDFWriter.tmp info); EvWrite (fname +:+ ".tex");
       EvLaunch (next_pid w) (cmd ++ [fname +:+ ".tex"])] ∧
    PDFWriter.call_ext self cmd parent fname src w =
      (let self' :=
         PDFWriter.mk (dict_set (PDFWriter.procs self) fname info)
                      (PDFWriter.cwd self) (PDFWriter.sequential self) in
       if PDFWriter.sequential self then PDFWriter.clean self'
       else mret self') wl.
Proof.
  unfold PDFWriter.call_ext, tempfile_TemporaryDirectory, os_chdir,
    open_write, subprocess_Popen.
  unfold mbind, M_bind. cbv beta iota. rewrite drop_records_after.
  eexists (PDFWriter.Info _ _ (Popen _ _ _)). eexists.
  split; [|split; [|split; [|split]]]; cycle 4.
  - reflexivity.
  - reflexivity.
  - reflexivity.
  - reflexivity.
  - rewrite (proj1 (after_drop_frame _ _)). simpl.
    by rewrite <- !app_assoc.
Qed.

(** Collecting the only retained job. *)
Lemma clean_single cwd0 seq fname info w :
  (∃ p, PDFWriter.clean (PDFWriter.mk [(fname, info)] cwd0 seq) w
          = Raise (FileNotFoundError p)) ∨
  (∃ w' tail,
     PDFWriter.clean (PDFWriter.mk [(fname, info)] cwd0 seq) w
       = Ok (PDFWriter.mk [] cwd0 seq, w') ∧
     trace w' = trace w ++
       [EvChdir (PDFWriter.tmp info); EvWait (pid (PDFWriter.proc info))]
       ++ tail ∧
     Forall quiet tail).
Proof.
  unfold PDFWriter.clean. simpl. unfold mbind, M_bind.
  destruct (clean_job_cases fname info w)
    as [[p Hjob]|(w' & tail & Hjob & Htrace & Hquiet)]; rewrite Hjob.
  - left. by exists p.
  - right. eexists. exists (tail ++ [EvChdir cwd0]).
    split; [reflexivity|]. split.
    + simpl. rewrite Htrace. by rewrite <- !app_assoc.
    + apply Forall_app. split; [done|]. by repeat constructor.
Qed.

End write_facts.

(** C7, as the code has it.  With [tectonic] installed, a submission to an
    orchestrator still in its initial state launches the job and collects it
    before it returns, unless the relocation of a file the compiler did not
    leave raises; the orchestrator is then no longer sequential.  Every
    later submission returns right after the launch: the job stays retained
    and its process is one more process in flight. *)
Theorem write_tectonic (self : PDFWriter.t) (parent fname src : string)
    (w : world) :
  "tectonic" ∈ executables w →
  let tmp := "/tmp/tmp" +:+ pretty (next_tmp w) in
  let launch :=
    [EvMakedirs parent; EvChdir tmp; EvWrite (fname +:+ ".tex");
     EvLaunch (next_pid w) ["tectonic"; fname +:+ ".tex"]] in
  (PDFWriter.sequential self = true → PDFWriter.procs self = [] →
   match PDFWriter.write self parent fname src w with
   | Ok (self', w') =>
       PDFWriter.procs self' = [] ∧
       PDFWriter.sequential self' = false ∧
       (∃ tail, trace w' = trace w ++ launch ++
                  [EvChdir tmp; EvWait (next_pid w)] ++ tail ∧
                Forall quiet tail) ∧
       next_pid w ∉ in_flight (trace w')
   | Raise e => ∃ p, e = FileNotFoundError p
   end) ∧
  (PDFWriter.sequential self = false →
   ∃ self' w' info,
     PDFWriter.write self parent fname src w = Ok (self', w') ∧
     PDFWriter.sequential self' = false ∧
     PDFWriter.procs self' = dict_set (PDFWriter.procs self) fname info ∧
     pid (PDFWriter.proc info) = next_pid w ∧
     trace w' = trace w ++ launch ∧
     in_flight (trace w') = in_flight (trace w) ++ [next_pid w]).
Proof.
  intros Hexe tmp launch.
  assert (PDFWriter.write self parent fname src w =
          (self' ← PDFWriter.call_ext self ["tectonic"] parent fname src;
           mret (PDFWriter.mk (PDFWriter.procs self') (PDFWriter.cwd self')
                   false))
            (record (EvMakedirs parent)
               (set_dirs ({[abspath w parent]} ∪ dirs w) w))) as ->.
  { unfold PDFWriter.write, os_makedirs, shutil_which.
    unfold mbind at 1 2, M_bind. by rewrite bool_decide_eq_true_2. }
  set (wm := record (EvMakedirs parent) _).
  destruct (call_ext_launch self ["tectonic"] parent fname src wm)
    as (info & wl & Htmp & Hparent & Hpid & Htrace & Hcall).
  change (next_tmp wm) with (next_tmp w) in Htmp. fold tmp in Htmp.
  change (next_pid wm) with (next_pid w) in Hpid, Htrace.
  change (trace wm) with (trace w ++ [EvMakedirs parent]) in Htrace.
  rewrite Htmp in Htrace. rewrite <- app_assoc in Htrace. simpl in Htrace.
  fold launch in Htrace.
  unfold mbind, M_bind. rewrite Hcall. split.
  - intros -> ->. simpl.
    destruct (clean_single (PDFWriter.cwd self) true fname info wl)
      as [[p ->]|(w' & tail & -> & Htrace' & Hquiet)]; [by exists p|].
    simpl. rewrite Htrace, Htmp, Hpid, <- app_assoc in Htrace'.
    split; [done|]. split; [done|]. split; [by exists tail|].
    rewrite Htrace', !in_flight_app. unfold launch. simpl.
    rewrite (in_flight_from_quiet _ tail) by done.
    intros [Hne _]%list_elem_of_filter. done.
  - intros ->. simpl. exists
      (PDFWriter.mk (dict_set (PDFWriter.procs self) fname info)
                    (PDFWriter.cwd self) false).
    exists wl; exists info. split; [done|]. split; [done|].
    split; [done|]. split; [done|]. split; [done|].
    by rewrite Htrace, in_flight_app.
Qed.

Lemma write_tectonic_witness :
  (∃ self' w',
     PDFWriter.write (PDFWriter.mk [] "/home" true) "/out" "a" "A"
       (sample_world ∅) = Ok (self', w') ∧
     PDFWriter.procs self' = [] ∧
     PDFWriter.sequential self' = false ∧
     0 ∉ in_flight (trace w')) ∧
  (∃ self' w',
     PDFWriter.write (PDFWriter.mk [] "/home" false) "/out" "b" "B"
       (sample_world ∅) = Ok (self', w') ∧
     in_flight (trace w') = [0]).
Proof.
  assert ("tectonic" ∈ executables (sample_world ∅)) as Hexe
    by (apply (bool_decide_unpack _); vm_compute; exact I).
  split.
  - destruct (write_tectonic (PDFWriter.mk [] "/home" true) "/out" "a" "A"
                (sample_world ∅) Hexe) as [Hfirst _].
    specialize (Hfirst eq_refl eq_refl).
    destruct (PDFWriter.write _ _ _ _ _) as [[self' w']|e] eqn:Hrun.
    + destruct Hfirst as (Hprocs & Hseq & _ & Hflight).
      exists self'; exists w'. done.
    + vm_compute in Hrun. discriminate Hrun.
  - destruct (write_tectonic (PDFWriter.mk [] "/home" false) "/out" "b" "B"
                (sample_world ∅) Hexe) as [_ Hlater].
    destruct (Hlater eq_refl)
      as (self' & w' & info & Hrun & _ & _ & _ & _ & Hflight).
    exists self'; exists w'. done.
Defined.

(** C7, as stated, fails from the second submission on: of three jobs
    submitted with [tectonic] installed, the first is collected at once, the
    second and the third are launched one after the other and are both in
    flight when the third submission returns. *)
Lemma write_tectonic_counterexample :
  ∃ self' w',
    (PDFWriter.init ≫= λ self,
     PDFWriter.write self "/out" "a" "A" ≫= λ self,
     PDFWriter.write self "/out" "b" "B" ≫= λ self,
     PDFWriter.write self "/out" "c" "C") (sample_world ∅)
      = Ok (self', w') ∧
    (PDFWriter.procs self').*1 = ["b"; "c"] ∧
    in_flight (trace w') = [1; 2] ∧
    peak_in_flight (trace w') = 2 ∧
    last (trace w') = Some (EvLaunch 2 ["tectonic"; "c.tex"]).
Proof.
  eexists; eexists. split; [vm_compute; reflexivity|].
  split; [reflexivity|]. split; [reflexivity|].
  split; [vm_compute; reflexivity | reflexivity].
Qed.

(** What the resolver does for a child, whatever the child writes. *)
Section child_facts.

Context {T : Type} `{!MaybeOverwrite T} (self : T) (w : world).

Lemma maybe_overwrite_inplace fpath fuel :
  maybe_overwrite fuel self fpath true w = Some (write_to_path self fpath w).
Proof.
  unfold maybe_overwrite. by rewrite maybe_overwrite_path_kept by (by left).
Qed.

Lemma maybe_overwrite_fresh fpath :
  ∃ fpath',
    os_path_exists w fpath' = false ∧
    ∃ n, ∀ fuel, n ≤ fuel →
      maybe_overwrite fuel self fpath false w
        = Some (write_to_path self fpath' w).
Proof.
  destruct (os_path_exists w fpath) eqn:Hexists.
  - destruct (maybe_overwrite_path_search w fpath Hexists)
      as (k & _ & Hfree & _ & Hfound).
    eexists. split; [exact Hfree|].
    exists k. intros fuel Hfuel. unfold maybe_overwrite. by rewrite Hfound.
  - exists fpath. split; [done|].
    exists 0. intros fuel _. unfold maybe_overwrite.
    by rewrite maybe_overwrite_path_kept by (by right).
Qed.

(** A write that touches only a path at which nothing was keeps every
    file. *)
Lemma fresh_write_keeps fpath' w' :
  os_path_exists w fpath' = false →
  (∀ q, q ≠ abspath w fpath' → files w' !! q = files w !! q) →
  ∀ q content, files w !! q = Some content → files w' !! q = Some content.
Proof.
  intros Hfree Hframe q content Hq.
  rewrite Hframe; [done|]. intros ->.
  apply not_true_iff_false in Hfree. apply Hfree.
  apply os_path_exists_occupied, elem_of_union. left.
  by apply elem_of_dom_2 in Hq.
Qed.

End child_facts.

(** C6, as the code has it.  A child of [MaybeOverwrite] writes through the
    resolver: with overwriting allowed it writes to the given path; without,
    it writes to a path at which nothing exists, so a write that touches
    only its path leaves every file that was there as it was.  The three
    children do so: the summary attendance sheet never asks to overwrite,
    the Canvas export and the TA grade sheets do when their caller says so,
    and the TA grade sheets exit without writing when the configured path
    does not end in [.xlsx].  The relocation done by collection does not go
    through the resolver: the artifact, or the log and the source, are
    moved to [parent/fname.ext] itself, which then holds the moved file
    whatever it held before (for the artifact, the destination not lying
    in the scratch directory, which is removed). *)
Theorem overwrite_policy :
  (∀ (T : Type) (child : MaybeOverwrite T) (self : T) (w : world)
     (fpath : string),
     (∀ fuel, maybe_overwrite fuel self fpath true w
                = Some (write_to_path self fpath w)) ∧
     ∃ fpath',
       os_path_exists w fpath' = false ∧
       (∃ n, ∀ fuel, n ≤ fuel →
               maybe_overwrite fuel self fpath false w
                 = Some (write_to_path self fpath' w)) ∧
       (∀ w', write_to_path self fpath' w = Ok (tt, w') →
              (∀ q, q ≠ abspath w fpath' → files w' !! q = files w !! q) →
              ∀ q content, files w !! q = Some content →
                           files w' !! q = Some content)) ∧
  (∀ (child : MaybeOverwrite SummaryAttendanceSheet.t)
     (self : SummaryAttendanceSheet.t) (w : world),
     ∃ fpath',
       os_path_exists w fpath' = false ∧
       ∃ n, ∀ fuel, n ≤ fuel →
         SummaryAttendanceSheet.write fuel self w
           = Some (write_to_path self fpath' w)) ∧
  (∀ (child : MaybeOverwrite PublishedData.t) (self : PublishedData.t)
     (w : world),
     (∀ fuel, PublishedData.write fuel self true w
                = Some (write_to_path self "updated-for-canvas.csv" w)) ∧
     ∃ fpath',
       os_path_exists w fpath' = false ∧
       ∃ n, ∀ fuel, n ≤ fuel →
         PublishedData.write fuel self false w
           = Some (write_to_path self fpath' w)) ∧
  (∀ (child : MaybeOverwrite TAGradeSheets.t) (self : TAGradeSheets.t)
     (w : world),
     (∃ fpath,
        (os_path_splitext fpath).2 ≠ ".xlsx" ∧
        ∀ fuel inplace,
          TAGradeSheets.write fuel self inplace w
            = Some (Raise (SystemExit
                ("Error: '" +:+ fpath +:+ "' is not an Excel file name")))) ∨
     (∃ fpath,
        (∀ fuel, TAGradeSheets.write fuel self true w
                   = Some (write_to_path self fpath w)) ∧
        ∃ fpath',
          os_path_exists w fpath' = false ∧
          ∃ n, ∀ fuel, n ≤ fuel →
            TAGradeSheets.write fuel self false w
              = Some (write_to_path self fpath' w))) ∧
  (∀ (fname : string) (info : PDFWriter.info) (w : world),
     let tmp := PDFWriter.tmp info in
     let stdout := out_stdout (poutcome (PDFWriter.proc info)) in
     let scratch ext := os_path_join tmp (fname +:+ ext) in
     let dest ext := os_path_join (PDFWriter.parent info) (fname +:+ ext) in
     dir_exists w (dest_dir fname info w) = true →
     (∀ pdf_text,
        str_in "error" stdout || str_in "Error" stdout = false →
        in_scratch info w (fname +:+ ".pdf") = Some pdf_text →
        ∃ w', PDFWriter.clean_job fname info w = Ok (tt, w') ∧
              EvMove (scratch ".pdf") (dest ".pdf") ∈ trace w' ∧
              (str_startswith (tmp +:+ "/") (abspath w' (dest ".pdf"))
                 = false →
               files w' !! abspath w' (dest ".pdf") = Some pdf_text)) ∧
     (∀ log_text tex_text,
        str_in "error" stdout || str_in "Error" stdout = true →
        in_scratch info w (fname +:+ ".log") = Some log_text →
        in_scratch info w (fname +:+ ".tex") = Some tex_text →
        ∃ w', PDFWriter.clean_job fname info w = Ok (tt, w') ∧
              EvMove (scratch ".log") (dest ".log") ∈ trace w' ∧
              EvMove (scratch ".tex") (dest ".tex") ∈ trace w' ∧
              files w' !! abspath w' (dest ".log") = Some log_text ∧
              files w' !! abspath w' (dest ".tex") = Some tex_text)).
Proof.
  split; [|split; [|split; [|split]]].
  - intros T child self w fpath. split; [apply maybe_overwrite_inplace|].
    destruct (maybe_overwrite_fresh self w fpath) as (fpath' & Hfree & Hn).
    exists fpath'. split; [done|]. split; [done|].
    intros w' _. by apply fresh_write_keeps.
  - intros child self w. unfold SummaryAttendanceSheet.write.
    unfold Configuration.paths, dict_item.
    destruct (Configuration.parsed_paths
                (SummaryAttendanceSheet.config self)) as [paths|];
      cbn [mbind result_bind]; [|apply maybe_overwrite_fresh].
    destruct (paths !! "rosters"); apply maybe_overwrite_fresh.
  - intros child self w. unfold PublishedData.write.
    split; [apply maybe_overwrite_inplace | apply maybe_overwrite_fresh].
  - intros child self w. unfold TAGradeSheets.write.
    unfold Configuration.paths, dict_item.
    destruct (Configuration.parsed_paths (TAGradeSheets.config self))
      as [paths|]; cbn [mbind result_bind].
    + destruct (paths !! "current-grade-sheet") as [fpath|];
        cbn [mbind result_bind].
      * destruct (String.eqb_spec (os_path_splitext fpath).2 ".xlsx")
          as [Hext|Hext]; cbn [negb].
        -- right. exists fpath.
           split; [apply maybe_overwrite_inplace | apply maybe_overwrite_fresh].
        -- left. exists fpath. by split.
      * right. eexists.
        split; [apply maybe_overwrite_inplace | apply maybe_overwrite_fresh].
    + right. eexists.
      split; [apply maybe_overwrite_inplace | apply maybe_overwrite_fresh].
  - intros fname info w tmp stdout scratch dest Hdir. split.
    + intros pdf_text Hok Hpdf.
      destruct (clean_job_success fname info w pdf_text Hok Hdir Hpdf)
        as (w' & Hrun & Htrace & _ & _ & Hdest).
      exists w'. split; [done|]. split; [|done].
      rewrite Htrace. apply elem_of_app. right.
      do 2 (apply elem_of_cons; right). apply elem_of_cons. by left.
    + intros log_text tex_text Hfail Hlog Htex.
      destruct (clean_job_failure fname info w log_text tex_text
                  Hfail Hdir Hlog Htex)
        as (w' & Hrun & Htrace & _ & Hdlog & Hdtex).
      exists w'. split; [done|]. rewrite Htrace.
      split; [|split; [|by split]]; apply elem_of_app; right.
      * do 3 (apply elem_of_cons; right). apply elem_of_cons. by left.
      * do 4 (apply elem_of_cons; right). apply elem_of_cons. by left.
Qed.

Lemma overwrite_policy_witness :
  let w := sample_world {["/out/report.pdf" := "old"]} in
  (∃ fpath',
     os_path_exists w fpath' = false ∧
     ∃ n, ∀ fuel, n ≤ fuel →
       maybe_overwrite fuel (TextFile "new") "/out/report.pdf" false w
         = Some (write_to_path (TextFile "new") fpath' w)) ∧
  (∃ w', PDFWriter.clean_job "x" finished_job scratch_world = Ok (tt, w') ∧
         files w' !! abspath w' "/out/x.pdf" = Some "the pdf") ∧
  (∃ w', PDFWriter.clean_job "x" failed_job scratch_world = Ok (tt, w') ∧
         files w' !! abspath w' "/out/x.log" = Some "the log" ∧
         files w' !! abspath w' "/out/x.tex" = Some "the source").
Proof.
  intros w.
  destruct overwrite_policy as (Hchild & _ & _ & _ & Hclean).
  split; [|split].
  - destruct (Hchild text_file _ (TextFile "new") w "/out/report.pdf")
      as (_ & fpath' & Hfree & Hfound & _).
    exists fpath'. by split.
  - destruct (Hclean "x" finished_job scratch_world eq_refl) as [Hpdf _].
    destruct (Hpdf "the pdf" eq_refl eq_refl) as (w' & Hrun & _ & Hdest).
    exists w'. split; [exact Hrun|]. apply Hdest. reflexivity.
  - destruct (Hclean "x" failed_job scratch_world eq_refl) as [_ Hlog].
    destruct (Hlog "the log" "the source" eq_refl eq_refl eq_refl)
      as (w' & Hrun & _ & _ & Hdlog & Hdtex).
    exists w'. split; [exact Hrun|]. by split.
Defined.

(** C6, as stated, fails on collection: with [/out/x.pdf] already there,
    submitting and collecting a job named [x] replaces that file, and no
    [/out/x(1).pdf] appears. *)
Lemma overwrite_policy_counterexample :
  let w := sample_world {["/out/x.pdf" := "old"]} in
  files w !! "/out/x.pdf" = Some "old" ∧
  ∃ self' w',
    (PDFWriter.init ≫= λ self,
     PDFWriter.write self "/out" "x" "hello" ≫= PDFWriter.exit) w
      = Ok (self', w') ∧
    files w' !! "/out/x.pdf" = Some "PDF of hello" ∧
    files w' !! "/out/x(1).pdf" = None.
Proof.
  split; [reflexivity|].
  eexists; eexists. split; [vm_compute; reflexivity|].
  split; reflexivity.
Qed.

(** * Further properties *)

(** ** Dealing students into groups *)

Section dealing_facts.

Implicit Types (m : gmap nat (list StudentName.t)) (G c d g : nat).

Lemma every_lookup {A} G d (l : list A) j :
  d < G → every G d l !! j = l !! (j * G + d).
Proof.
  intros HG. revert d j HG.
  induction l as [|x l IH]; intros d j HG; [done|].
  destruct d as [|d]; simpl.
  - destruct j as [|j]; [done|]. simpl. rewrite IH by lia.
    replace (G + j * G + 0) with (S (j * G + (G - 1))) by lia. done.
  - rewrite IH by lia. by rewrite Nat.add_succ_r.
Qed.

Lemma every_length {A} G d (l : list A) :
  d < G → length (every G d l) = (length l + (G - 1 - d)) / G.
Proof.
  intros HG. revert d HG.
  induction l as [|x l IH]; intros d HG; simpl.
  - symmetry. apply Nat.div_small. lia.
  - destruct d as [|d]; simpl.
    + rewrite IH by lia.
      replace (G - 1 - (G - 1)) with 0 by lia.
      replace (S (length l + (G - 1 - 0))) with (length l + 0 + 1 * G) by lia.
      rewrite Nat.div_add by lia. lia.
    + rewrite IH by lia. f_equal. lia.
Qed.

Lemma deal_zip_cycle G c (l : list StudentName.t) m :
  0 < G → c ≤ G →
  (∀ g, g < G → is_Some (m !! (g + 1))) →
  ∃ m', Roster.deal (zip_cycle (seq 0 G) (seq c (G - c)) l) m = Ok m' ∧
        dom m' = dom m ∧
        ∀ g, g < G →
          m' !! (g + 1) =
            (λ ms, ms ++ every G (turns_until G c g) l) <$> m !! (g + 1).
Proof.
  intros HG. revert c m. induction l as [|x l IH]; intros c m Hc Hkeys.
  { exists m. split; [by destruct (seq c (G - c))|]. split; [done|].
    intros g Hg. destruct (Hkeys g Hg) as [ms ->]. simpl.
    by rewrite app_nil_r. }
  set (c0 := if decide (c = G) then 0 else c).
  assert (c0 < G) as Hc0 by (subst c0; case_decide; lia).
  assert (zip_cycle (seq 0 G) (seq c (G - c)) (x :: l) =
          (c0, x) :: zip_cycle (seq 0 G) (seq (S c0) (G - S c0)) l) as ->.
  { subst c0. case_decide as Hcase.
    - subst c. rewrite Nat.sub_diag. simpl.
      destruct G as [|G']; [lia|]. simpl. by rewrite Nat.sub_0_r.
    - destruct (G - c) as [|k] eqn:Hk; [lia|]. simpl.
      by replace (G - S c) with k by lia. }
  destruct (Hkeys c0 Hc0) as [ms0 Hms0]. simpl.
  unfold Roster.append_to. rewrite Hms0. simpl.
  destruct (IH (S c0) (<[c0 + 1 := ms0 ++ [x]]> m)) as (m' & -> & Hdom & Hm').
  { lia. }
  { intros g Hg. destruct (decide (g = c0)) as [->|Hne].
    - rewrite lookup_insert_eq. by eexists.
    - rewrite lookup_insert_ne by lia. by apply Hkeys. }
  exists m'. split; [done|]. split.
  { rewrite Hdom, dom_insert_L. apply elem_of_dom_2 in Hms0.
    apply subseteq_union_1_L. by apply singleton_subseteq_l. }
  intros g Hg. rewrite (Hm' g Hg). destruct (decide (g = c0)) as [->|Hne].
  - rewrite lookup_insert_eq, Hms0. simpl. f_equal.
    assert (turns_until G c c0 = 0) as ->
      by (unfold turns_until; subst c0; repeat case_decide; lia).
    assert (turns_until G (S c0) c0 = G - 1) as ->
      by (unfold turns_until; repeat case_decide; lia).
    simpl. by rewrite <- app_assoc.
  - rewrite lookup_insert_ne by lia.
    assert (turns_until G c g = S (turns_until G (S c0) g)) as ->
      by (unfold turns_until; subst c0; repeat case_decide; lia).
    done.
Qed.

(** The groups [set_groups] makes, one by one. *)
Lemma set_groups_every shuffle (self : Roster.t) :
  let G := Roster.ngroups (length (Roster.students self)) in
  ∃ r, Roster.set_groups shuffle self = Ok r ∧
       Roster.section r = Roster.section self ∧
       Roster.students r = shuffle (Roster.students self) ∧
       dom (Roster.groups r) = list_to_set (seq 1 G) ∧
       ∀ g, g < G →
         Roster.groups r !! (g + 1) = Some (every G g (Roster.students r)).
Proof.
  intros G. unfold Roster.set_groups. fold G.
  destruct (decide (G = 0)) as [HG|HG].
  { rewrite HG. simpl.
    assert (zip_cycle (@nil nat) [] (shuffle (Roster.students self)) = [])
      as -> by (by destruct (shuffle _)).
    simpl. eexists. split; [done|]. split; [done|].
    split; [done|]. split; [done|]. intros g Hg. lia. }
  destruct (deal_zip_cycle G 0 (shuffle (Roster.students self))
              (Roster.empty_groups G)) as (m' & Hdeal & Hdom & Hm'); [lia..| |].
  { intros g Hg. rewrite empty_groups_lookup, decide_True by lia. by eexists. }
  rewrite Nat.sub_0_r in Hdeal. rewrite Hdeal. simpl.
  eexists. split; [done|]. split; [done|]. split; [done|]. simpl.
  split; [by rewrite Hdom, empty_groups_dom|].
  intros g Hg. rewrite (Hm' g Hg), empty_groups_lookup, decide_True by lia.
  simpl. f_equal. unfold turns_until. rewrite decide_True by lia.
  by rewrite Nat.sub_0_r.
Qed.

Lemma ngroups_le n : Roster.ngroups n ≤ 6 ∧ Roster.ngroups n ≤ n.
Proof.
  rewrite ngroups_ceil. pose proof (ceil_5_spec n). lia.
Qed.

End dealing_facts.

Section group_size_facts.

Implicit Types (N G g : nat).

Lemma dealt_count N G g :
  g < G →
  (N + (G - 1 - g)) / G = N / G + (if decide (g < N mod G) then 1 else 0).
Proof.
  intros Hg.
  pose proof (Nat.div_mod_eq N G) as HN.
  pose proof (Nat.mod_upper_bound N G ltac:(lia)) as Hr.
  symmetry. case_decide.
  - apply (Nat.div_unique _ _ _ (N mod G - 1 - g)); lia.
  - apply (Nat.div_unique _ _ _ (N mod G + (G - 1 - g))); lia.
Qed.

Lemma smallest_group N :
  0 < N → 4 ≤ N / Roster.ngroups N ↔ N ∉ [1; 2; 3; 6; 7; 11].
Proof.
  intros HN. destruct (decide (N < 30)) as [Hsmall|Hlarge].
  - assert (Forall (λ N, 4 ≤ N / Roster.ngroups N ↔ N ∉ [1; 2; 3; 6; 7; 11])
              (seq 1 29)) as Hall
      by (apply (bool_decide_unpack _); vm_compute; exact I).
    rewrite Forall_forall in Hall. apply Hall, elem_of_seq. lia.
  - assert (Roster.ngroups N = 6) as ->.
    { rewrite ngroups_ceil. pose proof (ceil_5_spec N). lia. }
    split.
    + intros _ Hin. repeat (apply elem_of_cons in Hin as [->|Hin]; [lia|]).
      by apply elem_of_nil in Hin.
    + intros _. apply Nat.div_le_lower_bound; lia.
Qed.

End group_size_facts.

(** X1.  [set_groups] never raises, whatever the shuffle does, and keeps the
    section.  It deals the shuffled list in turn: group [g + 1] holds, in
    this order, the students at the positions [g], [g + G], [g + 2 G], ...
    of the shuffled list, so that when the shuffle is a rearrangement the
    student at position [i] is member number [i / G] of group
    [i mod G + 1]. *)
Theorem set_groups_deals shuffle (self : Roster.t) :
  let G := Roster.ngroups (length (Roster.students self)) in
  ∃ r, Roster.set_groups shuffle self = Ok r ∧
       Roster.section r = Roster.section self ∧
       Roster.students r = shuffle (Roster.students self) ∧
       (∀ g, g < G →
          ∃ ms, Roster.groups r !! (g + 1) = Some ms ∧
                ∀ j, ms !! j = Roster.students r !! (j * G + g)) ∧
       ((∀ l, shuffle l ≡ₚ l) →
        ∀ i s, Roster.students r !! i = Some s →
          ∃ ms, Roster.groups r !! (i mod G + 1) = Some ms ∧
                ms !! (i / G) = Some s).
Proof.
  intros G.
  destruct (set_groups_every shuffle self)
    as (r & Hr & Hsec & Hst & _ & Hgroups).
  fold G in Hgroups.
  exists r. split; [done|]. split; [done|]. split; [done|]. split.
  - intros g Hg. eexists. split; [by apply Hgroups|].
    intros j. by apply every_lookup.
  - intros Hperm i s Hi.
    assert (G ≠ 0) as HG.
    { intros HG. unfold G in HG. apply (proj1 (ngroups_0 _)) in HG.
      apply lookup_lt_Some in Hi.
      rewrite Hst, (Permutation_length (Hperm _)) in Hi. lia. }
    pose proof (Nat.mod_upper_bound i G HG) as Hmod.
    eexists. split; [by apply Hgroups|].
    rewrite every_lookup by done. rewrite <- Hi. f_equal.
    pose proof (Nat.div_mod_eq i G). lia.
Qed.

Lemma set_groups_deals_witness :
  ∃ r, Roster.set_groups reverse (Roster.init 12 (class_of 7)) = Ok r ∧
       (StudentName.str <$> Roster.students r)
         = ["6"; "5"; "4"; "3"; "2"; "1"; "0"] ∧
       ∃ ms, Roster.groups r !! 2 = Some ms ∧
             StudentName.str <$> ms !! 1 = Some "3".
Proof.
  destruct (set_groups_deals reverse (Roster.init 12 (class_of 7)))
    as (r & Hr & _ & Hst & _ & Hindex).
  exists r. split; [exact Hr|]. split; [by rewrite Hst|].
  destruct (Hindex reverse_Permutation 3 (StudentName.init "3"))
    as (ms & Hms & Hplace); [by rewrite Hst|].
  exists ms. split; [exact Hms|].
  assert (ms !! 1 = Some (StudentName.init "3")) as -> by exact Hplace.
  reflexivity.
Defined.

(** X2.  When the shuffle is a rearrangement, the groups are as even as
    can be: with [N] students in [G] groups, group [g + 1] has [N / G]
    members, and one more if [g < N mod G].  There are at most six groups
    and at most as many groups as students, so no group is empty. *)
Theorem set_groups_sizes shuffle (self : Roster.t) :
  (∀ l, shuffle l ≡ₚ l) →
  let N := length (Roster.students self) in
  let G := Roster.ngroups N in
  ∃ r, Roster.set_groups shuffle self = Ok r ∧
       G ≤ 6 ∧ G ≤ N ∧
       ∀ g, g < G →
         ∃ ms, Roster.groups r !! (g + 1) = Some ms ∧
               length ms = N / G + (if decide (g < N mod G) then 1 else 0) ∧
               1 ≤ length ms.
Proof.
  intros Hperm N G.
  destruct (set_groups_every shuffle self)
    as (r & Hr & _ & Hst & _ & Hgroups).
  fold N G in Hgroups. destruct (ngroups_le N) as [H6 HN]. fold G in H6, HN.
  exists r. split; [done|]. split; [done|]. split; [done|].
  intros g Hg. eexists. split; [by apply Hgroups|].
  rewrite every_length, Hst, (Permutation_length (Hperm _)) by done.
  fold N. rewrite dealt_count by done. split; [done|].
  assert (1 ≤ N / G); [|lia].
  apply Nat.div_le_lower_bound; lia.
Qed.

Lemma set_groups_sizes_witness :
  ∃ r, Roster.set_groups (random_shuffle sample_draws)
         (Roster.init 12 (class_of 23)) = Ok r ∧
       (λ g, length <$> Roster.groups r !! g) <$> seq 1 5
         = [Some 5; Some 5; Some 5; Some 4; Some 4].
Proof.
  destruct (set_groups_sizes (random_shuffle sample_draws)
              (Roster.init 12 (class_of 23))
              (random_shuffle_Permutation sample_draws))
    as (r & Hr & _ & _ & Hsizes).
  exists r. split; [exact Hr|].
  destruct (Hsizes 0) as (ms0 & H0 & L0 & _); [vm_compute; lia|].
  destruct (Hsizes 1) as (ms1 & H1 & L1 & _); [vm_compute; lia|].
  destruct (Hsizes 2) as (ms2 & H2 & L2 & _); [vm_compute; lia|].
  destruct (Hsizes 3) as (ms3 & H3 & L3 & _); [vm_compute; lia|].
  destruct (Hsizes 4) as (ms4 & H4 & L4 & _); [vm_compute; lia|].
  simpl in H0, H1, H2, H3, H4. cbn [fmap list_fmap seq].
  rewrite H0, H1, H2, H3, H4. cbn [fmap option_fmap option_map].
  rewrite L0, L1, L2, L3, L4. reflexivity.
Defined.

(** X3.  When the shuffle is a rearrangement of a non-empty class, every
    group has at least four members exactly when the class size is none of
    1, 2, 3, 6, 7 and 11; so it has for every class of twelve or more. *)
Theorem set_groups_four shuffle (self : Roster.t) :
  (∀ l, shuffle l ≡ₚ l) →
  let N := length (Roster.students self) in
  0 < N →
  ∃ r, Roster.set_groups shuffle self = Ok r ∧
       ((∀ g ms, Roster.groups r !! g = Some ms → 4 ≤ length ms)
        ↔ N ∉ [1; 2; 3; 6; 7; 11]).
Proof.
  intros Hperm N HN.
  destruct (set_groups_sizes shuffle self Hperm)
    as (r & Hr & _ & HG & Hsizes).
  destruct (set_groups_every shuffle self) as (r' & Hr' & _ & _ & Hdom & _).
  rewrite Hr in Hr'. injection Hr' as <-.
  fold N in HG, Hsizes, Hdom. set (G := Roster.ngroups N) in *.
  assert (0 < G) as HG0.
  { destruct (decide (G = 0)) as [H0|]; [|lia].
    unfold G in H0. apply (proj1 (ngroups_0 _)) in H0. lia. }
  exists r. split; [done|]. rewrite <- (smallest_group N HN). fold G. split.
  - intros Hall. destruct (Hsizes (G - 1)) as (ms & Hms & Hlen & _); [lia|].
    apply Hall in Hms. rewrite Hlen in Hms.
    pose proof (Nat.mod_upper_bound N G ltac:(lia)).
    rewrite decide_False in Hms by lia. lia.
  - intros Hmin g ms Hms.
    assert (g ∈ dom (Roster.groups r)) as Hg by (by eapply elem_of_dom_2).
    rewrite Hdom, elem_of_list_to_set, elem_of_seq in Hg.
    destruct (Hsizes (g - 1)) as (ms' & Hms' & Hlen & _); [lia|].
    replace (g - 1 + 1) with g in Hms' by lia.
    rewrite Hms in Hms'. injection Hms' as <-. lia.
Qed.

Lemma set_groups_four_witness :
  ∃ r, Roster.set_groups (random_shuffle sample_draws)
         (Roster.init 12 (class_of 12)) = Ok r ∧
       ∀ g ms, Roster.groups r !! g = Some ms → 4 ≤ length ms.
Proof.
  destruct (set_groups_four (random_shuffle sample_draws)
              (Roster.init 12 (class_of 12))
              (random_shuffle_Permutation sample_draws))
    as (r & Hr & Hfour); [vm_compute; lia|].
  exists r. split; [exact Hr|]. apply Hfour.
  apply (bool_decide_unpack _). vm_compute. exact I.
Defined.

(** ** Names as values *)

Section name_value_facts.

Implicit Types (a b c name : string).

Lemma canonical_init_Ok name :
  ∃ text, StudentName.canonical (StudentName.init name) = Ok text.
Proof. destruct (canonical_init name) as (text & ? & _). by exists text. Qed.

Lemma ltb_compare a b : String.ltb a b = true ↔ String.compare a b = Lt.
Proof. unfold String.ltb. by destruct (String.compare a b). Qed.

Lemma compare_refl a : String.compare a a = Eq.
Proof.
  pose proof (String.compare_antisym a a) as Hanti.
  by destruct (String.compare a a).
Qed.

Lemma ltb_le a b : String.ltb a b = true ↔ String.le a b ∧ a ≠ b.
Proof.
  rewrite ltb_compare. unfold String.le, String.leb. split.
  - intros Hlt. rewrite Hlt. split; [done|]. intros ->.
    rewrite compare_refl in Hlt. discriminate.
  - intros [Hle Hne]. destruct (String.compare a b) eqn:Hcmp; [|done|done].
    by apply String.compare_eq_iff in Hcmp.
Qed.

Lemma ltb_trans a b c :
  String.ltb a b = true → String.ltb b c = true → String.ltb a c = true.
Proof.
  rewrite !ltb_le. intros [Hab Hne] [Hbc Hne']. split; [by etrans|].
  intros ->. destruct Hne. by apply (anti_symm String.le).
Qed.

Lemma ltb_trichotomy a b :
  (String.ltb a b = true ∧ a ≠ b ∧ String.ltb b a = false) ∨
  (String.ltb a b = false ∧ a = b ∧ String.ltb b a = false) ∨
  (String.ltb a b = false ∧ a ≠ b ∧ String.ltb b a = true).
Proof.
  pose proof (String.compare_antisym a b) as Hanti.
  pose proof (String.compare_eq_iff a b) as Heq.
  unfold String.ltb.
  destruct (String.compare a b) eqn:Hab, (String.compare b a) eqn:Hba;
    try discriminate Hanti.
  - right; left. by rewrite Heq.
  - left. split; [done|]. split; [|done]. intros ->.
    rewrite compare_refl in Hab. discriminate.
  - right; right. split; [done|]. split; [|done]. intros ->.
    rewrite compare_refl in Hab. discriminate.
Qed.

End name_value_facts.

(** X4.  For every raw name, [canonical] does not raise, and [canonicalize]
    gives a name that prints as the canonical form of the original, has that
    same canonical form, and is its own [canonicalize]d form. *)
Theorem canonicalize_idempotent (name : string) :
  ∃ text s,
    StudentName.canonical (StudentName.init name) = Ok text ∧
    StudentName.canonicalize (StudentName.init name) = Ok s ∧
    StudentName.str s = text ∧
    StudentName.canonical s = Ok text ∧
    StudentName.canonicalize s = Ok s.
Proof.
  destruct (canonical_init name) as (text & Htext & [Hno | [Hinit ->]]).
  - exists text; exists (StudentName.init text).
    unfold StudentName.canonicalize. rewrite Htext. simpl.
    rewrite canonical_no_comma by done. simpl.
    split; [done|]. split; [done|]. split; [|done].
    by rewrite init_no_comma.
  - exists name; exists (StudentName.init name).
    unfold StudentName.canonicalize. rewrite Htext. simpl.
    split; [done|]. split; [done|]. split; [|done].
    by rewrite Hinit.
Qed.

(** X5.  On constructed names [==] does not raise and is an equivalence
    relation, it holds exactly when the canonical forms are the same string,
    and names that are equal have the same hash. *)
Theorem eq_equivalence (hash_str : string → Z) (a b c : string) :
  let A := StudentName.init a in
  let B := StudentName.init b in
  let C := StudentName.init c in
  (∃ same, StudentName.eq A B = Ok same) ∧
  StudentName.eq A A = Ok true ∧
  StudentName.eq A B = StudentName.eq B A ∧
  (StudentName.eq A B = Ok true → StudentName.eq B C = Ok true →
   StudentName.eq A C = Ok true) ∧
  (StudentName.eq A B = Ok true ↔
   StudentName.canonical A = StudentName.canonical B) ∧
  (StudentName.eq A B = Ok true →
   StudentName.hash hash_str A = StudentName.hash hash_str B).
Proof.
  intros A B C. subst A B C. unfold StudentName.eq, StudentName.hash.
  destruct (canonical_init_Ok a) as [ta ->].
  destruct (canonical_init_Ok b) as [tb ->].
  destruct (canonical_init_Ok c) as [tc ->]. simpl.
  split; [by eexists|]. split; [by rewrite bool_decide_eq_true_2|].
  split; [f_equal; apply bool_decide_ext; naive_solver|].
  split; [|split].
  - intros [= ->%bool_decide_eq_true] [= ->%bool_decide_eq_true].
    by rewrite bool_decide_eq_true_2.
  - split.
    + by intros [= ->%bool_decide_eq_true].
    + intros [= ->]. by rewrite bool_decide_eq_true_2.
  - by intros [= ->%bool_decide_eq_true].
Qed.

Lemma eq_equivalence_witness :
  StudentName.eq (StudentName.init "Doe,Ann")
                 (StudentName.init " Doe ,  Ann ") = Ok true ∧
  StudentName.hash (λ s, Z.of_nat (String.length s))
    (StudentName.init "Doe,Ann")
    = StudentName.hash (λ s, Z.of_nat (String.length s))
        (StudentName.init "Ann Doe").
Proof.
  destruct (eq_equivalence (λ s, Z.of_nat (String.length s))
              "Doe,Ann" "Ann Doe" " Doe ,  Ann ")
    as (_ & _ & Hsym & Htrans & _ & Hhash).
  split.
  - apply Htrans; reflexivity.
  - apply Hhash. reflexivity.
Defined.

(** X6.  On constructed names [<] does not raise and is a strict total
    order that agrees with [==]: of [a < b], [a == b] and [b < a] exactly one
    holds, and [<] is transitive. *)
Theorem lt_strict_total_order (a b c : string) :
  let A := StudentName.init a in
  let B := StudentName.init b in
  let C := StudentName.init c in
  ((StudentName.lt A B = Ok true ∧ StudentName.eq A B = Ok false ∧
    StudentName.lt B A = Ok false) ∨
   (StudentName.lt A B = Ok false ∧ StudentName.eq A B = Ok true ∧
    StudentName.lt B A = Ok false) ∨
   (StudentName.lt A B = Ok false ∧ StudentName.eq A B = Ok false ∧
    StudentName.lt B A = Ok true)) ∧
  (StudentName.lt A B = Ok true → StudentName.lt B C = Ok true →
   StudentName.lt A C = Ok true).
Proof.
  intros A B C. subst A B C. unfold StudentName.eq, StudentName.lt.
  destruct (canonical_init_Ok a) as [ta ->].
  destruct (canonical_init_Ok b) as [tb ->].
  destruct (canonical_init_Ok c) as [tc ->]. simpl. split.
  - destruct (ltb_trichotomy ta tb)
      as [(-> & Hne & ->)|[(-> & Heq & ->)|(-> & Hne & ->)]].
    + left. by rewrite bool_decide_eq_false_2.
    + right; left. by rewrite bool_decide_eq_true_2.
    + right; right. by rewrite bool_decide_eq_false_2.
  - intros [= Hab] [= Hbc]. by rewrite (ltb_trans ta tb tc).
Qed.

Lemma lt_strict_total_order_witness :
  StudentName.lt (StudentName.init "Adams, Zoe")
                 (StudentName.init "Zoe Baker") = Ok true.
Proof.
  destruct (lt_strict_total_order "Adams, Zoe" "Zoe Adamson" "Zoe Baker")
    as [_ Htrans].
  apply Htrans; reflexivity.
Defined.

(** ** The text of a roster *)

Section sorted_facts.
Context `{Countable K} {V : Type} (le : relation K) `{!RelDecision le}.

Lemma sorted_items_Permutation (m : gmap K V) :
  sorted_items le m ≡ₚ map_to_list m.
Proof. apply merge_sort_Permutation. Qed.

Lemma sorted_items_unique `{!PreOrder le} `{!AntiSymm (=) le} `{!Total le}
    (m : gmap K V) (l : list (K * V)) :
  StronglySorted (key_le le) l → l ≡ₚ map_to_list m → sorted_items le m = l.
Proof.
  intros Hl Hperm.
  assert (Transitive (@key_le K V le)) as Htrans.
  { intros x y z. unfold key_le. apply transitivity. }
  assert (Total (@key_le K V le)) as Htotal.
  { intros x y. unfold key_le. apply total, _. }
  apply (StronglySorted_unique_strong (key_le le)).
  - intros [k1 v1] [k2 v2] H1 H2 Hle1 Hle2. unfold key_le in *. simpl in *.
    assert (k1 = k2) as <- by (by apply (anti_symm le)).
    unfold sorted_items in H1. rewrite merge_sort_Permutation in H1.
    rewrite Hperm in H2.
    apply elem_of_map_to_list in H1, H2. congruence.
  - by apply StronglySorted_merge_sort.
  - exact Hl.
  - by rewrite sorted_items_Permutation.
Qed.

End sorted_facts.

Section text_facts.
Implicit Types (self : CodeGen.t) (s : Z) (ls : list string).

Lemma ascending_NoDup secs : ascending secs → NoDup secs.*1.
Proof.
  induction 1 as [|[k v] secs _ IH Hall]; [constructor|].
  simpl. constructor; [|exact IH].
  intros ([k' v'] & Hk & Hin)%list_elem_of_fmap. simpl in Hk. subst k'.
  rewrite Forall_forall in Hall. apply Hall in Hin. simpl in Hin. lia.
Qed.

Lemma ascending_key_le secs :
  ascending secs → StronglySorted (key_le Z.le) secs.
Proof.
  induction 1 as [|x secs _ IH Hall]; constructor; [exact IH|].
  eapply Forall_impl; [exact Hall|]. intros y. unfold key_le. simpl. lia.
Qed.

Lemma sorted_items_ascending secs :
  ascending secs → sorted_items Z.le (list_to_map secs) = secs.
Proof.
  intros Hasc. apply sorted_items_unique; try apply _.
  - by apply ascending_key_le.
  - symmetry. apply map_to_list_to_map, ascending_NoDup, Hasc.
Qed.

Lemma append_line_Some self s line ls :
  CodeGen.code self !! s = Some ls →
  CodeGen.append_line self s line =
    Ok (CodeGen.mk (CodeGen.lab self) (CodeGen.checkpoints self)
          (<[s := ls ++ [line]]> (CodeGen.code self))).
Proof. intros H. unfold CodeGen.append_line. now rewrite H. Qed.

Lemma append_line_None self s line :
  CodeGen.code self !! s = None →
  CodeGen.append_line self s line = Raise KeyError.
Proof. intros H. unfold CodeGen.append_line. now rewrite H. Qed.

Lemma add_rows_lines students : ∀ self s n ls,
  CodeGen.code self !! s = Some ls →
  CodeGen.add_rows self s n (str_repeat "& " (n - 1)) students =
    Ok (CodeGen.mk (CodeGen.lab self) (CodeGen.checkpoints self)
          (<[s := ls ++ (students ≫= λ student,
                           [rule_row n; student_row n student])]>
             (CodeGen.code self))).
Proof.
  induction students as [|st students IH]; intros self s n ls Hls.
  - simpl. rewrite app_nil_r, insert_id by exact Hls. now destruct self.
  - cbn [CodeGen.add_rows].
    rewrite (append_line_Some _ _ _ _ Hls). cbn [mbind result_bind].
    erewrite append_line_Some by apply lookup_insert_eq.
    cbn [mbind result_bind].
    erewrite IH by apply lookup_insert_eq.
    cbn [CodeGen.lab CodeGen.checkpoints CodeGen.code].
    rewrite !insert_insert_eq.
    cbn [mbind list_bind]. rewrite <- ?app_assoc. reflexivity.
Qed.

Lemma add_group_lines self s group students cps ls :
  CodeGen.checkpoints self = Some cps →
  CodeGen.code self !! s = Some ls →
  CodeGen.add_group self s group students =
    Ok (CodeGen.mk (CodeGen.lab self) (CodeGen.checkpoints self)
          (<[s := ls ++ group_lines (length cps) group students]>
             (CodeGen.code self))).
Proof.
  intros Hcps Hls. destruct students as [|st rest].
  - simpl. rewrite app_nil_r, insert_id by exact Hls. now destruct self.
  - cbn [CodeGen.add_group]. unfold CodeGen.len_checkpoints. rewrite Hcps.
    cbn [mbind result_bind].
    rewrite (append_line_Some _ _ _ _ Hls). cbn [mbind result_bind].
    erewrite add_rows_lines by apply lookup_insert_eq.
    cbn [mbind result_bind].
    erewrite append_line_Some by apply lookup_insert_eq.
    cbn [CodeGen.lab CodeGen.checkpoints CodeGen.code].
    rewrite !insert_insert_eq.
    unfold group_lines, first_row. rewrite <- ?app_assoc, ?Hcps.
    reflexivity.
Qed.

Lemma add_groups_lines groups : ∀ self s cps ls,
  CodeGen.checkpoints self = Some cps →
  CodeGen.code self !! s = Some ls →
  CodeGen.add_groups self s groups =
    Ok (CodeGen.mk (CodeGen.lab self) (CodeGen.checkpoints self)
          (<[s := ls ++ table_body (length cps) groups]>
             (CodeGen.code self))).
Proof.
  induction groups as [|[g sts] groups IH]; intros self s cps ls Hcps Hls.
  - simpl. rewrite app_nil_r, insert_id by exact Hls. now destruct self.
  - cbn [CodeGen.add_groups].
    rewrite (add_group_lines _ _ _ _ _ _ Hcps Hls). cbn [mbind result_bind].
    erewrite IH; [| exact Hcps | apply lookup_insert_eq].
    cbn [CodeGen.lab CodeGen.checkpoints CodeGen.code].
    rewrite !insert_insert_eq.
    unfold table_body. cbn [mbind list_bind]. rewrite <- ?app_assoc.
    reflexivity.
Qed.

Lemma section_codegen_lines self (roster : Roster.t) cps :
  CodeGen.checkpoints self = Some cps →
  CodeGen.section_codegen self roster =
    Ok (CodeGen.mk (CodeGen.lab self) (Some cps)
          (<[Roster.section roster :=
               CodeGen.begin_lines (CodeGen.lab self)
                 (Roster.section roster) cps ++
               removelast
                 (table_body (length cps)
                    (sorted_items Nat.le (Roster.groups roster))) ++
               CodeGen.end_lines]> (CodeGen.code self))).
Proof.
  intros Hcps. unfold CodeGen.section_codegen. rewrite Hcps.
  erewrite add_groups_lines; [| reflexivity | apply lookup_insert_eq].
  cbn [mbind result_bind CodeGen.lab CodeGen.checkpoints CodeGen.code].
  rewrite !insert_insert_eq, lookup_insert_eq, insert_insert_eq.
  reflexivity.
Qed.

Lemma group_lines_length n g students :
  length (group_lines n g students) = 2 * length students.
Proof.
  destruct students as [|st rest]; [reflexivity|].
  unfold group_lines. cbn [length]. rewrite length_app. cbn [length].
  assert (length (rest ≫= λ student, [rule_row n; student_row n student])
          = 2 * length rest) as ->; [|lia].
  induction rest as [|x rest IH]; [reflexivity|].
  cbn [mbind list_bind length app]. cbn [mbind] in IH. rewrite IH. lia.
Qed.

Lemma table_body_length n groups :
  length (table_body n groups) = 2 * length (concat groups.*2).
Proof.
  induction groups as [|[g sts] groups IH]; [reflexivity|].
  unfold table_body in *. cbn [mbind list_bind fmap list_fmap concat].
  cbn [mbind] in IH.
  rewrite !length_app, IH, group_lines_length. simpl. lia.
Qed.

Lemma concat_length_Permutation {A} (l l' : list (list A)) :
  l ≡ₚ l' → length (concat l) = length (concat l').
Proof.
  induction 1; simpl; rewrite ?length_app in *; lia.
Qed.

Lemma removelast_length {A} (l : list A) :
  length (removelast l) = length l - 1.
Proof.
  rewrite removelast_firstn_len, length_take. lia.
Qed.

Lemma group_lines_last n g students :
  last (group_lines n g students) = None ∨
  last (group_lines n g students) = Some "      \hline".
Proof.
  destruct students as [|st rest]; [by left|right].
  unfold group_lines. rewrite app_comm_cons. apply last_snoc.
Qed.

Lemma table_body_last n groups :
  last (table_body n groups) = None ∨
  last (table_body n groups) = Some "      \hline".
Proof.
  induction groups as [|[g sts] groups IH]; [by left|].
  unfold table_body in *. cbn [mbind list_bind]. cbn [mbind] in IH.
  rewrite last_app.
  destruct IH as [-> | ->]; [|by right]. apply group_lines_last.
Qed.

Lemma elem_of_removelast {A} (x : A) (l : list A) :
  x ∈ l → last l ≠ Some x → x ∈ removelast l.
Proof.
  intros Hin Hlast. destruct (last l) as [y|] eqn:Hl.
  - apply last_Some in Hl as [l' ->]. rewrite removelast_last.
    apply elem_of_app in Hin as [?|Hin]; [done|].
    apply list_elem_of_singleton in Hin. congruence.
  - apply last_None in Hl. subst l. by apply elem_of_nil in Hin.
Qed.

Lemma str_in_app_l (name r : string) : str_in name (name +:+ r) = true.
Proof. apply str_in_spec. exists ""; exists r. by rewrite str_app_nil_l. Qed.

Lemma str_in_app_r (name l t : string) :
  str_in name t = true → str_in name (l +:+ t) = true.
Proof.
  intros (a & b & ->)%str_in_spec. apply str_in_spec.
  exists (l +:+ a); exists b. by rewrite (str_app_assoc l a).
Qed.

Lemma group_lines_names n g students st :
  st ∈ students →
  ∃ line, line ∈ group_lines n g students ∧
    line ≠ "      \hline" ∧ str_in (StudentName.str st) line = true.
Proof.
  intros Hin. destruct students as [|st0 rest]; [by apply elem_of_nil in Hin|].
  apply elem_of_cons in Hin as [->|Hin].
  - exists (first_row n (length (st0 :: rest)) g st0). split; [|split].
    + unfold group_lines. apply elem_of_cons. by left.
    + unfold first_row. intros Heq. vm_compute in Heq. discriminate.
    + unfold first_row. do 6 apply str_in_app_r. apply str_in_app_l.
  - exists (student_row n st). split; [|split].
    + unfold group_lines. apply elem_of_cons. right.
      apply elem_of_app. left. apply list_elem_of_bind.
      exists st. split; [|exact Hin]. apply elem_of_cons. right.
      apply elem_of_cons. by left.
    + unfold student_row. intros Heq. vm_compute in Heq. discriminate.
    + unfold student_row. apply str_in_app_r, str_in_app_l.
Qed.

Lemma table_body_names n groups st :
  st ∈ concat groups.*2 →
  ∃ line, line ∈ removelast (table_body n groups) ∧
    str_in (StudentName.str st) line = true.
Proof.
  intros Hin. apply list_elem_of_In, in_concat in Hin as (sts & Hsts & Hst).
  apply list_elem_of_In, list_elem_of_fmap in Hsts as ([g sts'] & -> & Hg).
  apply list_elem_of_In in Hst. simpl in Hst.
  destruct (group_lines_names n g sts' st Hst) as (line & Hline & Hne & Hname).
  exists line. split; [|exact Hname].
  apply elem_of_removelast.
  - unfold table_body. apply list_elem_of_bind. by exists (g, sts').
  - destruct (table_body_last n groups) as [-> | ->]; congruence.
Qed.

End text_facts.

Section sum_facts.

Lemma code_sum gens : ∀ start,
  CodeGen.code (CodeGen.sum gens start) =
    foldl (λ acc c, c ∪ acc) (CodeGen.code start) (CodeGen.code <$> gens).
Proof.
  unfold CodeGen.sum.
  induction gens as [|g gens IH]; intros start; [reflexivity|].
  cbn [foldl fmap list_fmap]. rewrite IH. reflexivity.
Qed.

Lemma merged_lookup_None (cs : list (gmap Z (list string))) : ∀ acc k,
  foldl (λ acc c, c ∪ acc) acc cs !! k = None ↔
  acc !! k = None ∧ ∀ c, c ∈ cs → c !! k = None.
Proof.
  induction cs as [|c cs IH]; intros acc k; cbn [foldl].
  - split; [|tauto]. intros ?. split; [done|]. by intros c ?%elem_of_nil.
  - rewrite IH, lookup_union_None. split.
    + intros [[Hc Hacc] Hcs]. split; [done|].
      intros c' [->|?]%elem_of_cons; auto.
    + intros [Hacc Hcs]. split; [split; [|done]|].
      * apply Hcs, elem_of_cons. by left.
      * intros c' ?. apply Hcs, elem_of_cons. by right.
Qed.

Lemma merged_lookup_Some (cs : list (gmap Z (list string))) : ∀ acc k v,
  foldl (λ acc c, c ∪ acc) acc cs !! k = Some v →
  acc !! k = Some v ∨ ∃ c, c ∈ cs ∧ c !! k = Some v.
Proof.
  induction cs as [|c cs IH]; intros acc k v; cbn [foldl]; [by left|].
  intros [Hacc|(c' & Hin & Hc')]%IH.
  - apply lookup_union_Some_raw in Hacc as [Hc|[_ Hacc]]; [right|by left].
    exists c. split; [apply elem_of_cons; by left|done].
  - right. exists c'. split; [apply elem_of_cons; by right|done].
Qed.

Lemma merged_sections cs secs :
  NoDup secs.*1 → cs ≡ₚ one_section <$> secs →
  foldl (λ acc c, c ∪ acc) ∅ cs = list_to_map secs.
Proof.
  intros Hnodup Hperm. apply map_eq. intros k.
  assert (∀ c v, c ∈ cs → c !! k = Some v → (k, v) ∈ secs) as Hsound.
  { intros c v Hc Hv. rewrite Hperm in Hc.
    apply list_elem_of_fmap in Hc as ([k' v'] & -> & Hin).
    unfold one_section in Hv. simpl in Hv.
    apply lookup_singleton_Some in Hv as [-> ->]. exact Hin. }
  destruct (list_to_map secs !! k) as [v|] eqn:Hk.
  - apply elem_of_list_to_map in Hk; [|exact Hnodup].
    destruct (foldl _ ∅ cs !! k) as [v'|] eqn:Hbig.
    + apply merged_lookup_Some in Hbig as [Hbig|(c & Hc & Hv)].
      * by rewrite lookup_empty in Hbig.
      * f_equal. apply (Hsound c v' Hc) in Hv.
        apply (elem_of_list_to_map _ _ _ Hnodup) in Hv, Hk. congruence.
    + apply merged_lookup_None in Hbig as [_ Hbig].
      specialize (Hbig (one_section (k, v))).
      unfold one_section in Hbig at 2. simpl in Hbig.
      rewrite lookup_singleton_eq in Hbig. discriminate Hbig.
      rewrite Hperm. apply list_elem_of_fmap. by exists (k, v).
  - apply merged_lookup_None. split; [apply lookup_empty|].
    intros c Hc. destruct (c !! k) as [v|] eqn:Hv; [|done].
    apply (Hsound c v Hc) in Hv.
    apply (elem_of_list_to_map _ _ _ Hnodup) in Hv. congruence.
Qed.

End sum_facts.

(** X7.  A fragment built from a roster ([CodeGen(roster, lab,
    checkpoints)]) cannot be built without checkpoints: the constructor
    raises [TypeError].  With checkpoints it never raises, and it holds
    exactly one section, the roster's, so that the [section] property
    returns that number; the section has 11 lines of frame and, for [N]
    students in the groups, [2 N - 1] lines of rows; every student's name
    is printed on one of the lines. *)
Theorem init_roster (roster : Roster.t) (lab : option Z)
    (cps : list string) :
  CodeGen.init (Some roster) lab None = Raise TypeError ∧
  ∃ lines,
    CodeGen.init (Some roster) lab (Some cps) =
      Ok (CodeGen.mk lab (Some cps) {[Roster.section roster := lines]}) ∧
    CodeGen.section
      (CodeGen.mk lab (Some cps) {[Roster.section roster := lines]}) =
      Ok (Roster.section roster) ∧
    length lines = 11 + (2 * length (members (Roster.groups roster)) - 1) ∧
    ∀ st, st ∈ members (Roster.groups roster) →
      ∃ line, line ∈ lines ∧ str_in (StudentName.str st) line = true.
Proof.
  split; [reflexivity|].
  eexists. split; [|split; [|split]].
  - unfold CodeGen.init. erewrite section_codegen_lines by reflexivity.
    cbn [CodeGen.lab CodeGen.code]. rewrite insert_empty. reflexivity.
  - unfold CodeGen.section. cbn [CodeGen.code].
    rewrite map_size_singleton, map_to_list_singleton. reflexivity.
  - rewrite !length_app, removelast_length, table_body_length.
    unfold members.
    rewrite (concat_length_Permutation _ (map_to_list (Roster.groups roster)).*2)
      by (apply fmap_Permutation, sorted_items_Permutation).
    unfold CodeGen.begin_lines, CodeGen.end_lines. cbn [length]. lia.
  - intros st Hst.
    destruct (table_body_names (length cps)
                (sorted_items Nat.le (Roster.groups roster)) st)
      as (line & Hline & Hname).
    + unfold members in Hst.
      apply list_elem_of_In, in_concat in Hst as (sts & Hsts & Hst).
      apply list_elem_of_In, in_concat. exists sts. split; [|exact Hst].
      apply list_elem_of_In. apply list_elem_of_In in Hsts.
      by rewrite sorted_items_Permutation.
    + exists line. split; [|exact Hname].
      apply elem_of_app. right. apply elem_of_app. by left.
Qed.

Lemma init_roster_witness :
  ∃ lines,
    CodeGen.init (Some (Roster.mk 7 [] {[1 := class_of 2]})) (Some 2%Z)
      (Some ["a"; "b"]) =
      Ok (CodeGen.mk (Some 2%Z) (Some ["a"; "b"]) {[7%Z := lines]}) ∧
    length lines = 14 ∧
    ∃ line, line ∈ lines ∧ str_in "1" line = true.
Proof.
  destruct (init_roster (Roster.mk 7 [] {[1 := class_of 2]}) (Some 2%Z)
              ["a"; "b"]) as (_ & lines & Hinit & _ & Hlen & Hnames).
  exists lines. split; [exact Hinit|]. split; [exact Hlen|].
  apply (Hnames (StudentName.init "1")).
  vm_compute. apply elem_of_cons. right. apply elem_of_cons. by left.
Defined.

(** X8.  [add_group] with an empty group changes nothing and cannot fail,
    whatever the state of the object.  With students it raises [TypeError]
    when the object has no checkpoints, and otherwise [KeyError] when the
    section has no entry yet.  Else it appends to the section's lines, and
    touches nothing else: two lines for each student, the last one
    [\hline], every student's name on one of them. *)
Theorem add_group_rows (self : CodeGen.t) (s : Z) (group : nat)
    (students : list StudentName.t) :
  CodeGen.add_group self s group [] = Ok self ∧
  (students ≠ [] → CodeGen.checkpoints self = None →
     CodeGen.add_group self s group students = Raise TypeError) ∧
  (students ≠ [] → is_Some (CodeGen.checkpoints self) →
     CodeGen.code self !! s = None →
     CodeGen.add_group self s group students = Raise KeyError) ∧
  (∀ ls, students ≠ [] → is_Some (CodeGen.checkpoints self) →
     CodeGen.code self !! s = Some ls →
     ∃ new,
       CodeGen.add_group self s group students =
         Ok (CodeGen.mk (CodeGen.lab self) (CodeGen.checkpoints self)
               (<[s := ls ++ new]> (CodeGen.code self))) ∧
       length new = 2 * length students ∧
       last new = Some "      \hline" ∧
       ∀ st, st ∈ students →
         ∃ line, line ∈ new ∧ str_in (StudentName.str st) line = true).
Proof.
  split; [reflexivity|]. split; [|split].
  - intros Hne Hcps. destruct students; [done|].
    cbn [CodeGen.add_group]. unfold CodeGen.len_checkpoints.
    by rewrite Hcps.
  - intros Hne [cps Hcps] Hs. destruct students; [done|].
    cbn [CodeGen.add_group]. unfold CodeGen.len_checkpoints.
    rewrite Hcps. cbn [mbind result_bind].
    by rewrite append_line_None.
  - intros ls Hne [cps Hcps] Hs.
    exists (group_lines (length cps) group students).
    split; [by apply add_group_lines|]. split; [apply group_lines_length|].
    split.
    + destruct (group_lines_last (length cps) group students) as [H|H];
        [|exact H].
      destruct students; [done|]. unfold group_lines in H.
      rewrite app_comm_cons, last_snoc in H. discriminate.
    + intros st Hst.
      destruct (group_lines_names (length cps) group students st Hst)
        as (line & ? & _ & ?). eauto.
Qed.

Lemma add_group_rows_witness :
  ∃ new,
    CodeGen.add_group fragment_1 1 4 (class_of 3) =
      Ok (CodeGen.mk (Some 3%Z) (Some ["1"; "2"])
            {[1%Z := ["\begin{center}"] ++ new]}) ∧
    length new = 6 ∧
    CodeGen.add_group fragment_1 2 4 (class_of 3) = Raise KeyError ∧
    CodeGen.add_group fragment_12 12 4 (class_of 3) = Raise TypeError.
Proof.
  destruct (add_group_rows fragment_1 1 4 (class_of 3))
    as (_ & _ & _ & Hok).
  destruct (Hok ["\begin{center}"]) as (new & Hnew & Hlen & _);
    [done | by eexists | reflexivity |].
  exists new. split; [|split; [exact Hlen|split]].
  - rewrite Hnew. cbn [CodeGen.lab CodeGen.checkpoints CodeGen.code fragment_1].
    by rewrite insert_singleton_eq.
  - apply (add_group_rows fragment_1 2 4 (class_of 3)); [done|by eexists|].
    reflexivity.
  - apply (add_group_rows fragment_12 12 4 (class_of 3)); [done|reflexivity].
Defined.

(** X9.  The document of a sum of fragments depends only on their
    sections, not on the order in which the fragments were added nor on
    their lab numbers and checkpoints: when the fragments hold, in any
    order, one section each, the text is the header, then the lines of the
    sections in increasing order of section number with the very last line
    (the final [\newpage]) left out, then the footer, joined by line
    feeds. *)
Theorem run_sum_ascending (gens : list CodeGen.t)
    (secs : list (Z * list string)) :
  ascending secs →
  CodeGen.code <$> gens ≡ₚ one_section <$> secs →
  CodeGen.run (CodeGen.sum gens CodeGen.mempty) =
    str_join newline
      (CodeGen.header ++ removelast (concat secs.*2) ++ CodeGen.footer).
Proof.
  intros Hasc Hperm. unfold CodeGen.run.
  rewrite code_sum. cbn [CodeGen.code CodeGen.mempty].
  rewrite (merged_sections _ secs (ascending_NoDup _ Hasc) Hperm).
  by rewrite sorted_items_ascending.
Qed.

Lemma run_sum_ascending_witness :
  CodeGen.run (CodeGen.sum [fragment_12; fragment_2; fragment_1]
                 CodeGen.mempty) =
    str_join newline
      (CodeGen.header ++
       ["\begin{center}"; "\hline"; "\end{center}"] ++ CodeGen.footer).
Proof.
  apply (run_sum_ascending [fragment_12; fragment_2; fragment_1]
           [(1%Z, ["\begin{center}"]); (2%Z, ["\hline"]);
            (12%Z, ["\end{center}"; "\newpage"])]).
  - unfold ascending. repeat constructor; simpl; lia.
  - exact (reverse_Permutation
             (one_section <$>
                [(1%Z, ["\begin{center}"]); (2%Z, ["\hline"]);
                 (12%Z, ["\end{center}"; "\newpage"])])).
Defined.

(** ** Rosters of canonical names *)

Section generate_facts.

Lemma set_groups_members shuffle (self : Roster.t) :
  (∀ l, shuffle l ≡ₚ l) →
  ∃ r, Roster.set_groups shuffle self = Ok r ∧
       Roster.section r = Roster.section self ∧
       dom (Roster.groups r) =
         list_to_set (seq 1 (Roster.ngroups (length (Roster.students self)))) ∧
       members (Roster.groups r) ≡ₚ Roster.students self.
Proof.
  intros Hperm.
  destruct (set_groups_spec shuffle self) as (r & Hr & Hsec & _ & Hdom & Hmem).
  exists r. split; [done|]. split; [done|]. split; [done|].
  rewrite Hmem.
  destruct (decide (Roster.ngroups (length (Roster.students self)) = 0))
    as [HG|HG].
  - apply ngroups_0, nil_length_inv in HG. rewrite HG.
    pose proof (Hperm []) as Hnil. apply Permutation_nil_r in Hnil.
    by rewrite Hnil.
  - rewrite zip_cycle_snd; [apply Hperm|].
    intros Hseq. apply (f_equal length) in Hseq.
    by rewrite length_seq in Hseq.
Qed.

Lemma canonicalize_init name :
  ∃ s, StudentName.canonicalize (StudentName.init name) = Ok s ∧
       StudentName.eq (StudentName.init name) s = Ok true ∧
       StudentName.canonicalize s = Ok s.
Proof.
  destruct (canonical_init name) as (text & Htext & [Hno | [Hinit ->]]).
  - exists (StudentName.init text).
    unfold StudentName.canonicalize, StudentName.eq. rewrite Htext. simpl.
    rewrite canonical_no_comma by done. simpl.
    split; [done|]. split; [|done]. by rewrite bool_decide_eq_true_2.
  - exists (StudentName.init name).
    unfold StudentName.canonicalize, StudentName.eq. rewrite Htext. simpl.
    split; [done|]. split; [|done]. by rewrite bool_decide_eq_true_2.
Qed.

Lemma mapM_canonicalize raw :
  ∃ students,
    mapM StudentName.canonicalize (StudentName.init <$> raw) = Ok students ∧
    Forall2 (λ name s,
               StudentName.eq (StudentName.init name) s = Ok true ∧
               StudentName.canonicalize s = Ok s) raw students.
Proof.
  induction raw as [|name raw (students & IH & Hall)].
  - exists []. split; [reflexivity | constructor].
  - destruct (canonicalize_init name) as (s & Hs & Heq & Hidem).
    exists (s :: students). split; [|by constructor].
    cbn [fmap list_fmap mapM]. rewrite Hs. cbn [mbind result_bind].
    rewrite IH. reflexivity.
Qed.

End generate_facts.

(** X10.  [generate_roster] raises [KeyError] for a section the data does
    not have.  For a section it has, with names built from text, it returns
    a roster of that section with the usual number of groups, whose group
    members are, in some order, the canonicalized names: as many as the
    section has students, each equal ([==]) to the student it comes from
    and in canonical form already. *)
Theorem generate_roster_canonical shuffle (self : Rosters.t) (section : Z)
    (raw : list string) :
  (∀ l, shuffle l ≡ₚ l) →
  (Rosters.data_students self !! section = None →
   Rosters.generate_roster shuffle self section = Raise KeyError) ∧
  (Rosters.data_students self !! section = Some (StudentName.init <$> raw) →
   ∃ roster students,
     Rosters.generate_roster shuffle self section = Ok roster ∧
     Roster.section roster = section ∧
     dom (Roster.groups roster) =
       list_to_set (seq 1 (Roster.ngroups (length raw))) ∧
     members (Roster.groups roster) ≡ₚ students ∧
     Forall2 (λ name s,
                StudentName.eq (StudentName.init name) s = Ok true ∧
                StudentName.canonicalize s = Ok s) raw students).
Proof.
  intros Hperm. unfold Rosters.generate_roster. split; [by intros ->|].
  intros ->.
  destruct (mapM_canonicalize raw) as (students & -> & Hall).
  cbn [mbind result_bind].
  destruct (set_groups_members shuffle (Roster.init section students) Hperm)
    as (r & Hr & Hsec & Hdom & Hmem).
  exists r; exists students. split; [done|]. split; [done|].
  split; [|by split].
  rewrite Hdom. cbn [Roster.students Roster.init].
  by rewrite <- (Forall2_length _ _ _ Hall).
Qed.

Lemma generate_roster_canonical_witness :
  Rosters.generate_roster (random_shuffle sample_draws)
    (Rosters.mk {[3%Z := StudentName.init <$> ["Doe, Ann"; "Bo Li"]]}) 4 =
    Raise KeyError ∧
  ∃ roster students,
    Rosters.generate_roster (random_shuffle sample_draws)
      (Rosters.mk {[3%Z := StudentName.init <$> ["Doe, Ann"; "Bo Li"]]}) 3 =
      Ok roster ∧
    members (Roster.groups roster) ≡ₚ students ∧
    Forall2 (λ name s,
               StudentName.eq (StudentName.init name) s = Ok true ∧
               StudentName.canonicalize s = Ok s)
      ["Doe, Ann"; "Bo Li"] students.
Proof.
  split.
  - apply (generate_roster_canonical (random_shuffle sample_draws)
             (Rosters.mk {[3%Z := StudentName.init <$> ["Doe, Ann"; "Bo Li"]]})
             4 []); [apply random_shuffle_Permutation | reflexivity].
  - destruct (generate_roster_canonical (random_shuffle sample_draws)
                (Rosters.mk
                   {[3%Z := StudentName.init <$> ["Doe, Ann"; "Bo Li"]]})
                3 ["Doe, Ann"; "Bo Li"])
      as (_ & Hok); [apply random_shuffle_Permutation|].
    destruct Hok as (roster & students & Hgen & _ & _ & Hmem & Hall);
      [reflexivity|].
    exists roster; exists students. split; [exact Hgen|]. by split.
Defined.

(** ** Background compilation and collection *)

Section background_facts.

Implicit Types (self : PDFWriter.t) (w : world) (tr tail : list event).

Lemma waits_app tr tail : waits (tr ++ tail) = waits tr ++ waits tail.
Proof. apply omap_app. Qed.

Lemma waits_quiet tail : Forall quiet tail → waits tail = [].
Proof. induction 1 as [|e tail He _ IH]; [done|]. by destruct e. Qed.

Lemma quiet_no_launch tail : Forall quiet tail → Forall no_launch tail.
Proof. intros H. eapply Forall_impl; [exact H|]. by intros []. Qed.

Lemma filter_all {A} (P : A → Prop) `{!∀ x, Decision (P x)} (l : list A) :
  Forall P l → filter P l = l.
Proof.
  induction 1 as [|x l Hx _ IH]; [done|].
  by rewrite filter_cons_True, IH.
Qed.

(** Without launches, the processes in flight after a trace are those
    that were in flight before and have not been waited for. *)
Lemma in_flight_from_waits tr : ∀ running,
  Forall no_launch tr →
  in_flight_from running tr = filter (λ p, p ∉ waits tr) running.
Proof.
  induction tr as [|e tr IH]; intros running Hno.
  - simpl. symmetry. apply filter_all.
    apply Forall_forall. intros p _. apply not_elem_of_nil.
  - apply Forall_cons in Hno as [He Hno].
    destruct e as [d|d|f|q a|q|f d|d|l]; try done; cbn [in_flight_from];
      rewrite IH by done; try reflexivity.
    rewrite list_filter_filter. apply list_filter_iff.
    intros p. change (waits (EvWait q :: tr)) with (q :: waits tr).
    rewrite not_elem_of_cons. tauto.
Qed.

Lemma clean_loop_cases items : ∀ w,
  (∃ p, PDFWriter.clean_loop items w = Raise (FileNotFoundError p)) ∨
  (∃ w' tr, PDFWriter.clean_loop items w = Ok (tt, w') ∧
     trace w' = trace w ++ tr ∧
     waits tr = job_pids items ∧
     Forall no_launch tr).
Proof.
  induction items as [|[fname info] items IH]; intros w.
  - right. exists w; exists []. rewrite app_nil_r. by repeat split.
  - rewrite clean_loop_cons.
    destruct (clean_job_cases fname info w)
      as [[p ->]|(w1 & tail & -> & Htrace & Hquiet)]; [left; by exists p|].
    destruct (IH w1) as [[p ->]|(w' & tr & -> & Htrace' & Hwaits & Hno)];
      [left; by exists p|].
    right. exists w'.
    exists ([EvChdir (PDFWriter.tmp info);
             EvWait (pid (PDFWriter.proc info))] ++ tail ++ tr).
    split; [done|]. split; [|split].
    + rewrite Htrace', Htrace. by rewrite <- !app_assoc.
    + rewrite !waits_app, (waits_quiet tail), Hwaits by done. reflexivity.
    + repeat (apply Forall_cons; split; [done|]).
      apply Forall_app. split; [by apply quiet_no_launch | done].
Qed.

(** [call_ext] in parallel mode: the compiler is started and the job is
    retained. *)
Lemma call_ext_background self cmd parent fname src w :
  PDFWriter.sequential self = false →
  ∃ info w',
    PDFWriter.call_ext self cmd parent fname src w =
      Ok (PDFWriter.mk (dict_set (PDFWriter.procs self) fname info)
            (PDFWriter.cwd self) false, w') ∧
    PDFWriter.tmp info = "/tmp/tmp" +:+ pretty (next_tmp w) ∧
    PDFWriter.parent info = parent ∧
    pid (PDFWriter.proc info) = next_pid w ∧
    trace w' = trace w ++
      [EvChdir (PDFWriter.tmp info); EvWrite (fname +:+ ".tex");
       EvLaunch (next_pid w) (cmd ++ [fname +:+ ".tex"])] ∧
    executables w' = executables w ∧
    next_pid w' = S (next_pid w) ∧
    next_tmp w' = S (next_tmp w) ∧
    ∀ old, dict_get (PDFWriter.procs self) fname = Some old →
           PDFWriter.tmp old ∉ dirs w'.
Proof.
  intros Hseq.
  unfold PDFWriter.call_ext, tempfile_TemporaryDirectory, os_chdir,
    open_write, subprocess_Popen.
  unfold mbind, M_bind. cbv beta iota. rewrite drop_records_after, Hseq.
  eexists (PDFWriter.Info _ _ (Popen _ _ _)). eexists.
  split; [reflexivity|].
  match goal with
  | |- context [after_drop ?items ?w0] =>
      destruct (after_drop_frame items w0) as (Ht & _ & He & _ & Hn & Hp)
  end.
  rewrite Ht, He, Hp, Hn.
  split; [reflexivity|]. split; [reflexivity|]. split; [reflexivity|].
  split; [cbn; by rewrite <- !app_assoc|].
  split; [reflexivity|]. split; [reflexivity|]. split; [reflexivity|].
  intros old Hold. rewrite Hold. apply (after_drop_gone _ _ fname).
  apply elem_of_cons. by left.
Qed.

(** A submission that does not wait. *)
Lemma write_background self parent fname src w cmd :
  ("tectonic" ∈ executables w ∧ PDFWriter.sequential self = false ∧
   cmd = ["tectonic"]) ∨
  (("tectonic" ∉ executables w) ∧ "pdflatex" ∈ executables w ∧
   cmd = ["pdflatex"; "-interaction=nonstopmode"]) →
  ∃ info w',
    PDFWriter.write self parent fname src w =
      Ok (PDFWriter.mk (dict_set (PDFWriter.procs self) fname info)
            (PDFWriter.cwd self) false, w') ∧
    PDFWriter.tmp info = "/tmp/tmp" +:+ pretty (next_tmp w) ∧
    PDFWriter.parent info = parent ∧
    pid (PDFWriter.proc info) = next_pid w ∧
    trace w' = trace w ++
      [EvMakedirs parent; EvChdir (PDFWriter.tmp info);
       EvWrite (fname +:+ ".tex"); EvLaunch (next_pid w)
                                     (cmd ++ [fname +:+ ".tex"])] ∧
    executables w' = executables w ∧
    next_pid w' = S (next_pid w) ∧
    next_tmp w' = S (next_tmp w) ∧
    ∀ old, dict_get (PDFWriter.procs self) fname = Some old →
           PDFWriter.tmp old ∉ dirs w'.
Proof.
  intros Hcase.
  set (wm := record (EvMakedirs parent)
               (set_dirs ({[abspath w parent]} ∪ dirs w) w)).
  assert (∃ info w',
    PDFWriter.write self parent fname src w =
      Ok (PDFWriter.mk (dict_set (PDFWriter.procs self) fname info)
            (PDFWriter.cwd self) false, w') ∧
    PDFWriter.tmp info = "/tmp/tmp" +:+ pretty (next_tmp wm) ∧
    PDFWriter.parent info = parent ∧
    pid (PDFWriter.proc info) = next_pid wm ∧
    trace w' = trace wm ++
      [EvChdir (PDFWriter.tmp info); EvWrite (fname +:+ ".tex");
       EvLaunch (next_pid wm) (cmd ++ [fname +:+ ".tex"])] ∧
    executables w' = executables wm ∧
    next_pid w' = S (next_pid wm) ∧
    next_tmp w' = S (next_tmp wm) ∧
    ∀ old, dict_get (PDFWriter.procs self) fname = Some old →
           PDFWriter.tmp old ∉ dirs w')
    as (info & w' & Hrun & Htmp & Hparent & Hpid & Htrace & Hexe & Hnext
        & Htmp' & Hgone).
  { destruct Hcase as [(Hexe & Hseq & ->)|(Hno & Hexe & ->)].
    - destruct (call_ext_background self ["tectonic"] parent fname src wm
                  Hseq) as (info & w' & Hcall & Hrest).
      exists info; exists w'. split; [|exact Hrest].
      unfold PDFWriter.write, os_makedirs, shutil_which.
      unfold mbind at 1 2, M_bind. rewrite bool_decide_eq_true_2 by done.
      unfold mbind at 1, M_bind. fold wm. by rewrite Hcall.
    - destruct (call_ext_background
                  (PDFWriter.mk (PDFWriter.procs self) (PDFWriter.cwd self)
                     false)
                  ["pdflatex"; "-interaction=nonstopmode"] parent fname src
                  wm eq_refl) as (info & w' & Hcall & Hrest).
      exists info; exists w'. split; [|exact Hrest].
      unfold PDFWriter.write, os_makedirs, shutil_which.
      unfold mbind at 1 2, M_bind. rewrite bool_decide_eq_false_2 by done.
      unfold mbind at 1, M_bind. rewrite bool_decide_eq_true_2 by done.
      fold wm. by rewrite Hcall. }
  exists info; exists w'. split; [done|]. split; [done|]. split; [done|].
  split; [done|]. split; [|by repeat split].
  rewrite Htrace. unfold wm. cbn [trace record set_dirs next_pid].
  by rewrite <- app_assoc.
Qed.

(** [clean] as a whole: the jobs are collected, the records let go of,
    and the working directory is that of the writer again. *)
Lemma clean_cases self w :
  (∃ p, PDFWriter.clean self w = Raise (FileNotFoundError p)) ∨
  (∃ w1 tr,
     trace w1 = trace w ++ tr ∧
     waits tr = job_pids (PDFWriter.procs self) ∧
     Forall no_launch tr ∧
     PDFWriter.clean self w =
       Ok (PDFWriter.mk [] (PDFWriter.cwd self) (PDFWriter.sequential self),
           record (EvChdir (PDFWriter.cwd self))
             (set_cwd
                (abspath (after_drop (PDFWriter.procs self) w1)
                   (PDFWriter.cwd self))
                (after_drop (PDFWriter.procs self) w1)))).
Proof.
  unfold PDFWriter.clean, mbind, M_bind.
  destruct (clean_loop_cases (PDFWriter.procs self) w)
    as [[p ->]|(w1 & tr & -> & Htrace & Hwaits & Hno)];
    [left; by exists p|].
  right. exists w1; exists tr. split; [done|]. split; [done|].
  split; [done|]. cbv beta iota. rewrite drop_records_after.
  reflexivity.
Qed.

Lemma clean_in_flight self w self' w' :
  PDFWriter.clean self w = Ok (self', w') →
  in_flight (trace w') =
    filter (λ p, p ∉ job_pids (PDFWriter.procs self)) (in_flight (trace w)).
Proof.
  destruct (clean_cases self w)
    as [[p ->]|(w1 & tr & Htrace & Hwaits & Hno & ->)]; [done|].
  intros [= <- <-]. cbn [trace record set_cwd].
  rewrite (proj1 (after_drop_frame _ _)).
  rewrite Htrace, <- app_assoc, in_flight_app.
  rewrite in_flight_from_waits.
  - apply list_filter_iff. intros p.
    by rewrite waits_app, <- Hwaits, app_nil_r.
  - apply Forall_app. split; [done|]. by repeat constructor.
Qed.

End background_facts.



(** X12.  Without [tectonic], a submission never waits, not even the
    first: with [pdflatex] installed it makes the output directory, writes
    the source in a fresh scratch directory, starts
    [pdflatex -interaction=nonstopmode] there and returns with the job
    retained and the process in flight, whatever the mode of the writer
    was; the mode is parallel from then on.  With neither compiler
    installed it exits. *)
Theorem write_pdflatex (self : PDFWriter.t) (parent fname src : string)
    (w : world) :
  "tectonic" ∉ executables w →
  ("pdflatex" ∈ executables w →
   ∃ info w',
     PDFWriter.write self parent fname src w =
       Ok (PDFWriter.mk (dict_set (PDFWriter.procs self) fname info)
             (PDFWriter.cwd self) false, w') ∧
     PDFWriter.parent info = parent ∧
     pid (PDFWriter.proc info) = next_pid w ∧
     trace w' = trace w ++
       [EvMakedirs parent; EvChdir ("/tmp/tmp" +:+ pretty (next_tmp w));
        EvWrite (fname +:+ ".tex");
        EvLaunch (next_pid w)
          ["pdflatex"; "-interaction=nonstopmode"; fname +:+ ".tex"]] ∧
     in_flight (trace w') = in_flight (trace w) ++ [next_pid w]) ∧
  ("pdflatex" ∉ executables w →
   PDFWriter.write self parent fname src w =
     Raise (SystemExit
       ("pdflatex and tectonic not found. Do you have LaTeX " +:+
        "installed and configured on your system?"))).
Proof.
  intros Hno. split.
  - intros Hexe.
    destruct (write_background self parent fname src w
                ["pdflatex"; "-interaction=nonstopmode"])
      as (info & w' & Hrun & Htmp & Hparent & Hpid & Htrace & _);
      [right; by repeat split|].
    exists info; exists w'. split; [done|]. split; [done|]. split; [done|].
    rewrite Htmp in Htrace. split; [exact Htrace|].
    by rewrite Htrace, in_flight_app.
  - intros Hno'. unfold PDFWriter.write, os_makedirs, shutil_which.
    unfold mbind at 1 2, M_bind. rewrite bool_decide_eq_false_2 by done.
    unfold mbind at 1, M_bind. by rewrite bool_decide_eq_false_2.
Qed.

Lemma write_pdflatex_witness :
  ∃ info w',
    PDFWriter.write (PDFWriter.mk [] "/home" true) "/out" "x" "text"
      pdflatex_world =
      Ok (PDFWriter.mk [("x", info)] "/home" false, w') ∧
    in_flight (trace w') = [0].
Proof.
  destruct (write_pdflatex (PDFWriter.mk [] "/home" true) "/out" "x" "text"
              pdflatex_world) as [Hrun _].
  { vm_compute. by intros [=]%list_elem_of_singleton. }
  destruct Hrun as (info & w' & Hrun & _ & _ & _ & Hfl).
  { apply list_elem_of_singleton. reflexivity. }
  exists info; exists w'. split; [exact Hrun | exact Hfl].
Defined.

(** X13.  The retained jobs are keyed by file name.  A writer in parallel
    mode that is given the same file name twice before it collects keeps
    one record, that of the second submission: both processes are started,
    the scratch directory of the first is removed as its record goes, and
    when [clean] returns the second has been waited for and the first is
    still in flight. *)
Theorem write_same_name (self : PDFWriter.t)
    (parent parent' fname src src' : string) (w : world) :
  "tectonic" ∈ executables w ∨ "pdflatex" ∈ executables w →
  ("tectonic" ∈ executables w → PDFWriter.sequential self = false) →
  PDFWriter.procs self = [] →
  ∃ info w2,
    (self1 ← PDFWriter.write self parent fname src;
     PDFWriter.write self1 parent' fname src') w =
      Ok (PDFWriter.mk [(fname, info)] (PDFWriter.cwd self) false, w2) ∧
    PDFWriter.parent info = parent' ∧
    PDFWriter.tmp info = "/tmp/tmp" +:+ pretty (S (next_tmp w)) ∧
    pid (PDFWriter.proc info) = S (next_pid w) ∧
    in_flight (trace w2) =
      in_flight (trace w) ++ [next_pid w; S (next_pid w)] ∧
    (("/tmp/tmp" +:+ pretty (next_tmp w)) ∉ dirs w2) ∧
    ∀ self3 w3,
      PDFWriter.clean
        (PDFWriter.mk [(fname, info)] (PDFWriter.cwd self) false) w2 =
        Ok (self3, w3) →
      next_pid w ∈ in_flight (trace w3) ∧
      S (next_pid w) ∉ in_flight (trace w3).
Proof.
  intros Hsome Hseq Hprocs.
  assert (∃ cmd,
    (("tectonic" ∈ executables w) ∧ PDFWriter.sequential self = false ∧
     cmd = ["tectonic"]) ∨
    (("tectonic" ∉ executables w) ∧ "pdflatex" ∈ executables w ∧
     cmd = ["pdflatex"; "-interaction=nonstopmode"])) as [cmd Hcase].
  { destruct (decide ("tectonic" ∈ executables w)) as [Hin|Hout].
    - exists ["tectonic"]. left. by repeat split; auto.
    - exists ["pdflatex"; "-interaction=nonstopmode"]. right.
      by destruct Hsome. }
  destruct (write_background self parent fname src w cmd Hcase)
    as (info1 & w1 & Hrun1 & Htmp1 & _ & Hpid1 & Htrace1 & Hexe1 & Hnext1
        & Hntmp1 & _).
  unfold mbind at 1, M_bind. rewrite Hrun1, Hprocs.
  destruct (write_background
              (PDFWriter.mk (dict_set [] fname info1) (PDFWriter.cwd self)
                 false) parent' fname src' w1 cmd)
    as (info2 & w2 & Hrun2 & Htmp2 & Hparent2 & Hpid2 & Htrace2 & _ & _ & _
        & Hgone).
  { rewrite Hexe1. destruct Hcase as [(? & _ & ?)|?]; [left|right]; done. }
  rewrite Hrun2. cbn [PDFWriter.procs PDFWriter.cwd dict_set].
  rewrite decide_True by done.
  exists info2; exists w2. split; [done|]. split; [done|].
  split; [by rewrite Htmp2, Hntmp1|].
  split; [by rewrite Hpid2, Hnext1|].
  assert (in_flight (trace w2) =
          in_flight (trace w) ++ [next_pid w; S (next_pid w)]) as Hfl.
  { rewrite Htrace2, Htrace1, !in_flight_app, Hnext1. cbn.
    by rewrite <- app_assoc. }
  split; [exact Hfl|]. split.
  { rewrite <- Htmp1. apply Hgone.
    cbn [PDFWriter.procs dict_set dict_get]. by rewrite decide_True. }
  intros self3 w3 Hclean. apply clean_in_flight in Hclean.
  rewrite Hclean, Hfl. cbn [PDFWriter.procs job_pids fmap list_fmap snd].
  rewrite Hpid2, Hnext1. split.
  - apply list_elem_of_filter. split.
    + intros Hin%list_elem_of_singleton. lia.
    + apply elem_of_app. right. apply elem_of_cons. by left.
  - intros [Hout _]%list_elem_of_filter. apply Hout.
    by apply list_elem_of_singleton.
Qed.

Lemma write_same_name_witness :
  ∃ info w2,
    (self1 ← PDFWriter.write (PDFWriter.mk [] "/home" true) "/out" "x" "one";
     PDFWriter.write self1 "/out" "x" "two") pdflatex_world =
      Ok (PDFWriter.mk [("x", info)] "/home" false, w2) ∧
    pid (PDFWriter.proc info) = 1 ∧
    in_flight (trace w2) = [0; 1].
Proof.
  destruct (write_same_name (PDFWriter.mk [] "/home" true) "/out" "/out" "x"
              "one" "two" pdflatex_world)
    as (info & w2 & Hrun & _ & _ & Hpid & Hfl & _).
  - right. apply list_elem_of_singleton. reflexivity.
  - vm_compute. by intros [=]%list_elem_of_singleton.
  - reflexivity.
  - exists info; exists w2. split; [exact Hrun|]. split; [exact Hpid|].
    exact Hfl.
Defined.
